(** * Shallow embedding of lib/AST/AutoDiff.cpp

    The parameter-index model of the automatic-differentiation support:
    [AutoDiffParameterIndices] (a bit-vector plus a method flag), its
    textual encoding, its lowering against a function type,
    [SILAutoDiffIndices] and the associated-function addressing.

    Conventions of the model:
    - an [llvm::SmallBitVector] is a [list bool]; bit [i] is [v !! i];
    - a C++ [assert] that fires, and any access that LLVM guards with an
      assertion (out-of-range [SmallVector]/[ArrayRef]/[SmallBitVector]
      subscripts, [castTo] on the wrong type), is a [None] result: the
      program aborts there;
    - [unsigned] values that are only used as sizes of in-memory vectors are
      [nat]; [unsigned] arithmetic that can wrap is written modulo 2^32 in [Z]. *)

From Stdlib Require Import ZArith Lia Ascii String Sorted.
From stdpp Require Import base list strings.



(** ** Bit-vector primitives ([llvm::SmallBitVector]) *)

Abbreviation bitvec := (list bool) (only parsing).

(** [v[i]] read as a plain bit: positions past the end read as unset. *)
Definition bit (v : bitvec) (i : nat) : bool := default false (v !! i).

(** [SmallBitVector::set(I, E)]: sets the bits of [[I, E)]. *)
Definition bv_set_range (I E : nat) (v : bitvec) : bitvec :=
  imap (fun k b => if decide (I <= k < E) then true else b) v.

(** ** AutoDiffParameterIndices *)

Record AutoDiffParameterIndices := {
  indices : bitvec;
  isMethodFlag : bool
}.

(** The data-model invariant: a method set has a bit for the receiver. *)
Definition valid (x : AutoDiffParameterIndices) : Prop :=
  isMethodFlag x = true -> 1 <= length (indices x).

(** *** [AutoDiffParameterIndices::getString] *)

Fixpoint flags_string (bs : bitvec) : string :=
  match bs with
  | [] => EmptyString
  | b :: bs' => String (if b then "S"%char else "U"%char) (flags_string bs')
  end.

Definition getString (x : AutoDiffParameterIndices) : string :=
  String (if isMethodFlag x then "M"%char else "F"%char)
         (flags_string (indices x)).

(** *** [AutoDiffParameterIndices::create(ASTContext &, StringRef)] *)

(** The loop [for (unsigned i : range(indices.size()))] over the characters
    following the marker: ['S'] sets bit [i], ['U'] leaves it, anything else
    returns [nullptr]. *)
Fixpoint create_loop (i : nat) (rest : string) (v : bitvec) : option bitvec :=
  match rest with
  | EmptyString => Some v
  | String c rest' =>
      if Ascii.eqb c "S"%char then create_loop (S i) rest' (<[i:=true]> v)
      else if Ascii.eqb c "U"%char then create_loop (S i) rest' v
      else None
  end.

Definition create_from_string (str : string) : option AutoDiffParameterIndices :=
  if String.length str <? 2 then None
  else
    match str with
    | EmptyString => None
    | String c0 rest =>
        let v := replicate (String.length str - 1) false in
        let marker :=
          if Ascii.eqb c0 "M"%char then Some true
          else if Ascii.eqb c0 "F"%char then Some false
          else None in
        match marker with
        | None => None
        | Some isMethod =>
            match create_loop 0 rest v with
            | None => None
            | Some idx => Some {| indices := idx; isMethodFlag := isMethod |}
            end
        end
    end.

(** ** Function types *)

(** The fragment of Swift's [Type] the algorithms look at: tuple types (with
    their element types), function types (parameters and result), and any
    other type as an opaque named leaf.  A parameter is represented by its
    plain type ([Param::getPlainType]). Types are taken as canonical. *)
#[warnings="-register-all"]
Inductive Ty :=
| TyNominal (name : string)
| TyTuple (elts : list Ty)
| TyFunction (params : list Ty) (result : Ty).

Record AnyFunctionType := {
  fnParams : list Ty;
  fnResult : Ty
}.

(** [type->castTo<AnyFunctionType>()]: asserts that [t] is a function type. *)
Definition castTo_function (t : Ty) : option AnyFunctionType :=
  match t with
  | TyFunction ps r => Some {| fnParams := ps; fnResult := r |}
  | _ => None
  end.

(** [unwrapSelfParameter]: asserts one outer parameter, then casts the
    result to a function type. *)
Definition unwrapSelfParameter (f : AnyFunctionType) (isMethod : bool)
    : option AnyFunctionType :=
  if isMethod then
    if length (fnParams f) =? 1 then castTo_function (fnResult f) else None
  else Some f.

(** [countNumFlattenedElementTypes]: [accumulate] over the elements of a
    tuple, 1 for any other type. *)
Fixpoint countNumFlattenedElementTypes (t : Ty) : nat :=
  match t with
  | TyTuple elts =>
      (fix acc (num : nat) (l : list Ty) : nat :=
         match l with
         | [] => num
         | t' :: l' => acc (num + countNumFlattenedElementTypes t') l'
         end) 0 elts
  | _ => 1
  end.

(** ** Construction from a function type *)

(** Modelled from the spec: the constructor
    [AutoDiffParameterIndices(unsigned numIndices, bool isMethod, bool setAllParams)],
    declared in the header, which is not part of the sources: "allocates a
    zero vector of size [nonSelfParamCount + (isMethod?1:0)]; if [setAll],
    sets every bit". *)
Definition AutoDiffParameterIndices_ctor (n : nat) (isMethod setAll : bool)
    : AutoDiffParameterIndices :=
  let v := replicate n false in
  {| indices := if setAll then bv_set_range 0 n v else v;
     isMethodFlag := isMethod |}.

(** [AutoDiffParameterIndices::create(ASTContext &, AnyFunctionType *, bool, bool)] *)
Definition create_from_type (f : AnyFunctionType) (isMethod setAllParams : bool)
    : option AutoDiffParameterIndices :=
  match unwrapSelfParameter f isMethod with
  | None => None
  | Some uw =>
      let paramCount := length (fnParams uw) + (if isMethod then 1 else 0) in
      Some (AutoDiffParameterIndices_ctor paramCount isMethod setAllParams)
  end.

(** ** Mutators *)

(** [getNumNonSelfParameters]: [indices.size() - (isMethodFlag ? 1 : 0)].
    The [unsigned] subtraction cannot wrap on a [valid] set. *)
Definition getNumNonSelfParameters (x : AutoDiffParameterIndices) : nat :=
  length (indices x) - (if isMethodFlag x then 1 else 0).

Definition setNonSelfParameter (x : AutoDiffParameterIndices) (paramIndex : nat)
    : option AutoDiffParameterIndices :=
  if paramIndex <? getNumNonSelfParameters x then
    Some {| indices := <[paramIndex:=true]> (indices x);
            isMethodFlag := isMethodFlag x |}
  else None.

Definition setAllNonSelfParameters (x : AutoDiffParameterIndices)
    : AutoDiffParameterIndices :=
  {| indices := bv_set_range 0 (getNumNonSelfParameters x) (indices x);
     isMethodFlag := isMethodFlag x |}.

Definition setSelfParameter (x : AutoDiffParameterIndices)
    : option AutoDiffParameterIndices :=
  if isMethodFlag x then
    Some {| indices := <[length (indices x) - 1:=true]> (indices x);
            isMethodFlag := isMethodFlag x |}
  else None.

(** ** [getSubsetParameterTypes] *)

(** [for (unsigned paramIndex : range(count)) if (indices[paramIndex])
    paramTypes.push_back(params[paramIndex])], from [start]. *)
Fixpoint subset_loop (bits : bitvec) (ps : list Ty) (start count : nat)
    : option (list Ty) :=
  match count with
  | 0 => Some []
  | S c =>
      b ← bits !! start;
      here ← (if (b : bool) then p ← ps !! start; Some [p] else Some []);
      tl ← subset_loop bits ps (S start) c;
      Some (here ++ tl)
  end.

Definition getSubsetParameterTypes (x : AutoDiffParameterIndices)
    (f : AnyFunctionType) (selfUncurried : bool) : option (list Ty) :=
  let last := length (indices x) - 1 in
  if selfUncurried && isMethodFlag x then
    let n := length (fnParams f) in
    (* with no parameter, [range(n - 1)] wraps around and the loop runs into
       an out-of-bounds access *)
    if n =? 0 then None
    else
      self ← (b ← indices x !! last;
              if (b : bool) then p ← fnParams f !! (n - 1); Some [p] else Some []);
      rest ← subset_loop (indices x) (fnParams f) 0 (n - 1);
      Some (self ++ rest)
  else
    uw ← unwrapSelfParameter f (isMethodFlag x);
    self ← (if isMethodFlag x then
              b ← indices x !! last;
              if (b : bool) then p ← fnParams f !! 0; Some [p] else Some []
            else Some []);
    rest ← subset_loop (indices x) (fnParams uw) 0 (length (fnParams uw));
    Some (self ++ rest).

(** ** [getLowered] *)

(** The loop over [range(indices.size())]: [paramLoweredSizes[i]] must exist,
    the range of an "on" parameter is set, the cursor always advances. *)
Fixpoint lower_loop (bits : bitvec) (sizes : list nat) (cur : nat) (res : bitvec)
    : option bitvec :=
  match bits with
  | [] => Some res
  | b :: bits' =>
      match sizes with
      | [] => None
      | w :: sizes' =>
          lower_loop bits' sizes' (cur + w)
                     (if b then bv_set_range cur (cur + w) res else res)
      end
  end.

Definition getLowered (x : AutoDiffParameterIndices) (f : AnyFunctionType)
    (selfUncurried : bool) : option bitvec :=
  unwrapped ← (if selfUncurried then Some f
               else unwrapSelfParameter f (isMethodFlag x));
  selfSize ← (if isMethodFlag x && negb selfUncurried then
                p ← fnParams f !! 0; Some [countNumFlattenedElementTypes p]
              else Some []);
  let paramLoweredSizes :=
    map countNumFlattenedElementTypes (fnParams unwrapped) ++ selfSize in
  let totalLoweredSize := sum_list paramLoweredSizes in
  lower_loop (indices x) paramLoweredSizes 0 (replicate totalLoweredSize false).

(** ** [unsigned] and [int] arithmetic *)

Local Open Scope Z_scope.

Definition u32 (z : Z) : Z := z mod 2 ^ 32.

(** The C-style cast [(int)u] of a 32-bit [unsigned]: two's complement. *)
Definition to_int32 (u : Z) : Z := if u <? 2 ^ 31 then u else u - 2 ^ 32.

(** ** SILAutoDiffIndices *)

Record SILAutoDiffIndices := {
  source : Z;
  parameters : bitvec
}.

(** [*std::max_element(parameters.begin(), parameters.end())] on a non-empty
    list. *)
Definition max_element (ps : list Z) : Z :=
  match ps with
  | [] => 0
  | p :: ps' => fold_left Z.max ps' p
  end.

(** The loop of the constructor: [assert((int)paramIdx > last)], then
    [last = paramIdx] and [set(paramIdx)]. *)
Fixpoint ctor_loop (ps : list Z) (last : Z) (v : bitvec) : option bitvec :=
  match ps with
  | [] => Some v
  | paramIdx :: ps' =>
      if last <? to_int32 paramIdx
      then ctor_loop ps' (to_int32 paramIdx) (<[Z.to_nat paramIdx:=true]> v)
      else None
  end.

(** [SILAutoDiffIndices(unsigned source, ArrayRef<unsigned> parameters)]; an
    empty list leaves the bit-vector empty, otherwise it is resized to
    [max + 1] (an [unsigned] sum) before the loop. *)
Definition SILAutoDiffIndices_ctor (src : Z) (ps : list Z) : option SILAutoDiffIndices :=
  match ps with
  | [] => Some {| source := src; parameters := [] |}
  | _ :: _ =>
      let max := max_element ps in
      let v := replicate (Z.to_nat (u32 (max + 1))) false in
      match ctor_loop ps (-1) v with
      | None => None
      | Some v' => Some {| source := src; parameters := v' |}
      end
  end.

(** [SmallBitVector::resize(n)]: new bits are unset. *)
Definition bv_resize (n : nat) (v : bitvec) : bitvec :=
  take n v ++ replicate (n - length v) false.

(** [a ^= b]: [a] grows to the longer length, then bitwise xor. *)
Definition bv_xor_assign (a b : bitvec) : bitvec :=
  let n := Nat.max (length a) (length b) in
  zip_with xorb (bv_resize n a) (bv_resize n b).

(** [SmallBitVector::none()] *)
Definition bv_none (v : bitvec) : bool := forallb negb v.

(** [SILAutoDiffIndices::operator==] *)
Definition SILAutoDiffIndices_eqb (a b : SILAutoDiffIndices) : bool :=
  if negb (source a =? source b)%Z then false
  else
    let buffer := replicate (Nat.max (length (parameters a)) (length (parameters b))) false in
    let buffer := bv_xor_assign buffer (parameters a) in
    let buffer := bv_xor_assign buffer (parameters b) in
    bv_none buffer.

(** ** Associated-function addressing *)

Inductive AutoDiffAssociatedFunctionKind := JVP | VJP.

Definition rawValue (k : AutoDiffAssociatedFunctionKind) : Z :=
  match k with JVP => 0 | VJP => 1 end.

(** [autodiff::getNumAutoDiffAssociatedFunctions] *)
Definition getNumAutoDiffAssociatedFunctions (differentiationOrder : Z) : Z :=
  u32 (differentiationOrder * 2).

(** [autodiff::getOffsetForAutoDiffAssociatedFunction] *)
Definition getOffsetForAutoDiffAssociatedFunction (order : Z)
    (kind : AutoDiffAssociatedFunctionKind) : Z :=
  u32 (u32 (u32 (order - 1) * getNumAutoDiffAssociatedFunctions order) + rawValue kind).

(** ** [Differentiability] *)

Module Differentiability.

Inductive AutoDiffMode := Forward | Reverse.

Record t := {
  mode : AutoDiffMode;
  wrtSelf : bool;
  parameterIndices : bitvec;
  resultIndices : bitvec
}.

(** [SmallBitVector::set()]: sets every bit. *)
Definition bv_set_all (v : bitvec) : bitvec := bv_set_range 0 (length v) v.

(** [Differentiability(AutoDiffMode, AnyFunctionType * )]; [hasSelfParam] is
    [type->getExtInfo().hasSelfParam()]. *)
Definition of_type (m : AutoDiffMode) (hasSelfParam : bool) (type : AnyFunctionType)
    : option t :=
  let resultIndices := replicate 1 false in
  match (if hasSelfParam then
           match castTo_function (fnResult type) with
           | None => None
           | Some methodTy => Some (replicate (length (fnParams methodTy)) false)
           end
         else Some (replicate (length (fnParams type)) false)) with
  | None => None
  | Some parameterIndices =>
      Some {| mode := m; wrtSelf := hasSelfParam;
              parameterIndices := bv_set_all parameterIndices;
              resultIndices := bv_set_all resultIndices |}
  end.

End Differentiability.

Local Close Scope Z_scope.

(** ** Spec-side readings used in the statements *)

(** The logical parameters of the spec's [lowered]: the unwrapped shape's
    parameters, then the receiver when [isMethod && !selfUncurried]; [None]
    when a method shape is not a single-receiver curried wrapper. *)
Definition logical_params (x : AutoDiffParameterIndices) (f : AnyFunctionType)
    (selfUncurried : bool) : option (list Ty) :=
  if isMethodFlag x && negb selfUncurried then
    match fnParams f, fnResult f with
    | [self], TyFunction ps _ => Some (ps ++ [self])
    | _, _ => None
    end
  else Some (fnParams f).

(** Whether position [pos] falls in the range of an "on" parameter when the
    parameters of widths [sizes] are laid out from [cur]. *)
Fixpoint lowered_hit (bits : bitvec) (sizes : list nat) (cur pos : nat) : bool :=
  match bits, sizes with
  | b :: bits', w :: sizes' =>
      (b && bool_decide (cur <= pos < cur + w)) || lowered_hit bits' sizes' (cur + w) pos
  | _, _ => false
  end.

(** The spec's "parameter types, in ascending position order, of every set
    bit": position [i] of [ps] is kept iff bit [i] is set. *)
Definition selected_types (bits : bitvec) (ps : list Ty) : list Ty :=
  concat (imap (fun i p => if bit bits i then [p] else []) ps).

(** A method type [(Self) -> (P...) -> R]: one outer parameter and a function
    result. *)
Definition is_curried_method (f : AnyFunctionType) : bool :=
  match fnParams f, fnResult f with
  | [_], TyFunction _ _ => true
  | _, _ => false
  end.

(** The number of parameters of [f] once the receiver, if any, is stripped. *)
Definition non_self_count (f : AnyFunctionType) (isMethod : bool) : nat :=
  if isMethod then
    match fnResult f with TyFunction ps _ => length ps | _ => 0 end
  else length (fnParams f).

(** [y] only adds bits to [x]: same flag, same length, every set bit kept. *)
Definition grows (x y : AutoDiffParameterIndices) : Prop :=
  isMethodFlag y = isMethodFlag x /\ length (indices y) = length (indices x) /\
  (forall j, bit (indices x) j = true -> bit (indices y) j = true).

(** * Proofs *)

(** ** Bit-vector lemmas *)

Lemma bit_lookup (v : bitvec) k : k < length v -> v !! k = Some (bit v k).
Proof.
  intros Hk. unfold bit. destruct (lookup_lt_is_Some_2 v k Hk) as [b Hb].
  by rewrite Hb.
Qed.

Lemma bit_insert_true (v : bitvec) i k :
  i < length v -> bit (<[i:=true]> v) k = bool_decide (k = i) || bit v k.
Proof.
  intros Hi. unfold bit. destruct (decide (k = i)) as [->|Hne].
  - by rewrite list_lookup_insert_eq, bool_decide_true.
  - rewrite list_lookup_insert_ne by congruence. by rewrite bool_decide_false.
Qed.

Lemma bit_replicate_false n k : bit (replicate n false) k = false.
Proof.
  unfold bit. destruct (decide (k < n)).
  - by rewrite lookup_replicate_2.
  - rewrite (proj1 (lookup_replicate_None n false k)) by lia. done.
Qed.

(** ** Unit tests of the encoding *)

Example getString_ex :
  getString {| indices := [true; false; true]; isMethodFlag := true |} = "MSUS"%string.
Proof. reflexivity. Qed.

Example create_from_string_ex :
  create_from_string "FUS"%string = Some {| indices := [false; true]; isMethodFlag := false |}.
Proof. reflexivity. Qed.

(** ** The textual encoding *)

Lemma flags_string_length bs : String.length (flags_string bs) = length bs.
Proof. induction bs; simpl; auto. Qed.

Lemma create_loop_flags (bs : bitvec) (pre : bitvec) :
  create_loop (length pre) (flags_string bs) (pre ++ replicate (length bs) false)
  = Some (pre ++ bs).
Proof.
  revert pre. induction bs as [|b bs IH]; intros pre; simpl.
  - by rewrite !app_nil_r.
  - assert (Hl : length (pre ++ [b]) = S (length pre)).
    { rewrite length_app. simpl. lia. }
    destruct b; simpl.
    + replace (length pre) with (length pre + 0) at 2 by lia.
      rewrite insert_app_r. simpl.
      replace (length pre + 0) with (length pre) by lia.
      specialize (IH (pre ++ [true])). rewrite Hl, <- !app_assoc in IH.
      exact IH.
    + specialize (IH (pre ++ [false])). rewrite Hl, <- !app_assoc in IH.
      exact IH.
Qed.

Lemma create_loop_None i rest v :
  create_loop i rest v = None <->
  exists j c, String.get j rest = Some c /\ c <> "S"%char /\ c <> "U"%char.
Proof.
  revert i v. induction rest as [|c rest IH]; intros i v; simpl.
  - split; [discriminate|]. intros (j & c & Hj & _). destruct j; discriminate.
  - destruct (Ascii.eqb_spec c "S"%char) as [->|HS];
      [|destruct (Ascii.eqb_spec c "U"%char) as [->|HU]].
    + rewrite IH. split.
      * intros (j & c & Hj & H1 & H2). by exists (S j), c.
      * intros ([|j] & c & Hj & H1 & H2); simpl in Hj.
        -- injection Hj as <-. congruence.
        -- by exists j, c.
    + rewrite IH. split.
      * intros (j & c & Hj & H1 & H2). by exists (S j), c.
      * intros ([|j] & c & Hj & H1 & H2); simpl in Hj.
        -- injection Hj as <-. congruence.
        -- by exists j, c.
    + split; [intros _; by exists 0, c|done].
Qed.

Lemma create_loop_Some i rest v r :
  i + String.length rest <= length v ->
  create_loop i rest v = Some r ->
  length r = length v /\
  forall k, bit r k = bit v k || bool_decide (i <= k) &&
                      bool_decide (String.get (k - i) rest = Some "S"%char).
Proof.
  revert i v. induction rest as [|c rest IH]; intros i v Hlen Hr; simpl in *.
  - injection Hr as ->. split; [done|]. intros k.
    destruct (bit r k); [done|]. destruct (k - i); simpl; by rewrite andb_false_r.
  - destruct (Ascii.eqb_spec c "S"%char) as [->|HS];
      [|destruct (Ascii.eqb_spec c "U"%char) as [->|HU]].
    + apply IH in Hr; [|rewrite length_insert; lia].
      destruct Hr as [Hl Hb]. rewrite length_insert in Hl. split; [done|].
      intros k. rewrite Hb, bit_insert_true by lia.
      destruct (decide (k = i)) as [->|Hne].
      * rewrite bool_decide_true by done. rewrite Nat.sub_diag. simpl.
        rewrite bool_decide_true by lia. by rewrite orb_true_r.
      * rewrite (bool_decide_false (k = i)) by done. simpl.
        destruct (decide (i < k)).
        -- rewrite (bool_decide_true (S i <= k)), (bool_decide_true (i <= k)) by lia.
           replace (k - i) with (S (k - S i)) by lia. done.
        -- rewrite (bool_decide_false (S i <= k)), (bool_decide_false (i <= k)) by lia. done.
    + apply IH in Hr; [|lia]. destruct Hr as [Hl Hb]. split; [done|].
      intros k. rewrite Hb.
      destruct (decide (k = i)) as [->|Hne].
      * rewrite Nat.sub_diag. simpl.
        rewrite (bool_decide_false (S i <= i)) by lia. by rewrite andb_false_r.
      * destruct (decide (i < k)).
        -- rewrite (bool_decide_true (S i <= k)), (bool_decide_true (i <= k)) by lia.
           replace (k - i) with (S (k - S i)) by lia. done.
        -- rewrite (bool_decide_false (S i <= k)), (bool_decide_false (i <= k)) by lia. done.
    + discriminate.
Qed.

(** Strings rejected by [create(ASTContext &, StringRef)], in the spec's words. *)
Definition malformed (str : string) : Prop :=
  String.length str < 2 \/
  (exists c, String.get 0 str = Some c /\ c <> "F"%char /\ c <> "M"%char) \/
  (exists j c, String.get (S j) str = Some c /\ c <> "S"%char /\ c <> "U"%char).

(** C1 (counterexample): the non-method set with no parameters is printed as
    ["F"], which the parser rejects as too short. *)
Lemma C1_roundtrip_empty_fails :
  getString {| indices := []; isMethodFlag := false |} = "F"%string /\
  create_from_string (getString {| indices := []; isMethodFlag := false |}) = None.
Proof. split; reflexivity. Qed.

(** C1 (amended): for every set whose bit-vector has at least one bit (whatever
    its method flag), parsing the string produced by [getString] gives back
    exactly the same set. *)
Theorem C1_roundtrip_nonempty (x : AutoDiffParameterIndices) :
  1 <= length (indices x) ->
  create_from_string (getString x) = Some x.
Proof.
  destruct x as [bs m]. simpl. intros Hlen.
  unfold create_from_string, getString. simpl.
  rewrite flags_string_length.
  destruct bs as [|b bs']; [simpl in Hlen; lia|].
  replace (S (length (b :: bs')) <? 2) with false
    by (symmetry; apply Nat.ltb_ge; simpl; lia).
  replace (S (length (b :: bs')) - 1) with (length (b :: bs')) by lia.
  pose proof (create_loop_flags (b :: bs') []) as Hl. simpl in Hl |- *.
  destruct m; simpl; rewrite Hl; reflexivity.
Qed.

Lemma C1_roundtrip_nonempty_witness :
  1 <= length (indices {| indices := [true; false; true]; isMethodFlag := true |}) /\
  create_from_string (getString {| indices := [true; false; true]; isMethodFlag := true |})
  = Some {| indices := [true; false; true]; isMethodFlag := true |}.
Proof.
  split; [simpl; lia|]. apply C1_roundtrip_nonempty. simpl; lia.
Defined.

(** Decoding characterised; the validity lemmas below build on it. *)
Lemma create_from_string_spec (str : string) :
  (create_from_string str = None <-> malformed str) /\
  (forall x, create_from_string str = Some x ->
     (isMethodFlag x = true <-> String.get 0 str = Some "M"%char) /\
     length (indices x) = String.length str - 1 /\
     forall i, i < length (indices x) ->
       indices x !! i = Some (bool_decide (String.get (S i) str = Some "S"%char))).
Proof.
  unfold malformed. destruct str as [|c0 rest].
  - split; [split; [intros _; left; simpl; lia|done]|discriminate].
  - unfold create_from_string. cbn [String.length].
    destruct (S (String.length rest) <? 2) eqn:Hshort.
    { apply Nat.ltb_lt in Hshort. split; [split; [intros _; by left|done]|discriminate]. }
    apply Nat.ltb_ge in Hshort.
    replace (S (String.length rest) - 1) with (String.length rest) by lia.
    assert (Hmarker : forall m, (if Ascii.eqb c0 "M"%char then Some true
                      else if Ascii.eqb c0 "F"%char then Some false else None) = Some m ->
                      (m = true <-> c0 = "M"%char) /\ (c0 = "F"%char \/ c0 = "M"%char)).
    { intros m. destruct (Ascii.eqb_spec c0 "M"%char) as [->|HM].
      - intros [= <-]. tauto.
      - destruct (Ascii.eqb_spec c0 "F"%char) as [->|HF]; [|discriminate].
        intros [= <-]. split; [split; congruence|tauto]. }
    destruct (if Ascii.eqb c0 "M"%char then Some true
              else if Ascii.eqb c0 "F"%char then Some false else None) as [m|] eqn:Hm.
    2:{ split; [|discriminate]. split; [intros _|done]. right; left. exists c0.
        destruct (Ascii.eqb_spec c0 "M"%char); [discriminate|].
        destruct (Ascii.eqb_spec c0 "F"%char); [discriminate|]. done. }
    destruct (Hmarker m eq_refl) as [Hmeth Hc0].
    destruct (create_loop 0 rest (replicate (String.length rest) false)) as [r|] eqn:Hloop.
    + destruct (create_loop_Some 0 rest (replicate (String.length rest) false) r) as [Hlr Hbits];
        [rewrite length_replicate; lia|done|].
      rewrite length_replicate in Hlr.
      split.
      * split; [discriminate|].
        intros [H|[(c & Hc & H1 & H2)|(j & c & Hj & H1 & H2)]]; [lia| |].
        -- simpl in Hc. injection Hc as <-. tauto.
        -- simpl in Hj. assert (create_loop 0 rest (replicate (String.length rest) false) = None)
             by (apply create_loop_None; by exists j, c). congruence.
      * intros x [= <-]. simpl. split; [simpl; rewrite Hmeth; split; congruence|].
        split; [done|]. intros i Hi. rewrite bit_lookup by done. f_equal.
        rewrite Hbits, bit_replicate_false, Nat.sub_0_r. simpl.
        destruct (bool_decide (get i rest = Some "S"%char)); done.
    + split; [|discriminate]. split; [intros _|done].
      right; right. apply create_loop_None in Hloop. destruct Hloop as (j & c & Hj & H1 & H2).
      by exists j, c.
Qed.

(** C2: decoding is a total function returning [None] exactly on the malformed
    strings (shorter than 2, bad marker, or a bad flag), and otherwise a set
    whose method flag is [true] iff the marker is ['M'], with one bit per flag
    character, bit [i] set iff character [i+1] is ['S']. *)
Theorem C2_create_from_string_spec (str : string) :
  (create_from_string str = None <-> malformed str) /\
  (forall x, create_from_string str = Some x ->
     (isMethodFlag x = true <-> String.get 0 str = Some "M"%char) /\
     length (indices x) = String.length str - 1 /\
     forall i, i < length (indices x) ->
       indices x !! i = Some (bool_decide (String.get (S i) str = Some "S"%char))).
Proof. exact (create_from_string_spec str). Qed.

(** The four malformed strings listed by the spec are rejected. *)
Example create_from_string_rejects :
  create_from_string ""%string = None /\ create_from_string "X"%string = None /\
  create_from_string "GSU"%string = None /\ create_from_string "FSUX"%string = None.
Proof. repeat split; reflexivity. Qed.

(** ** Lowering *)

Lemma bit_set_range I E (v : bitvec) k :
  bit (bv_set_range I E v) k =
  bit v k || bool_decide (I <= k < E) && bool_decide (k < length v).
Proof.
  unfold bit, bv_set_range. rewrite list_lookup_imap.
  destruct (v !! k) as [b|] eqn:Hk; simpl.
  - rewrite (bool_decide_true (k < length v)) by (eapply lookup_lt_Some; eauto).
    destruct (decide (I <= k < E)).
    + rewrite bool_decide_true by done. by rewrite orb_true_r.
    + rewrite bool_decide_false by done. by rewrite orb_false_r.
  - rewrite (bool_decide_false (k < length v)) by (apply lookup_ge_None in Hk; lia).
    by rewrite andb_false_r.
Qed.

Lemma length_set_range I E (v : bitvec) : length (bv_set_range I E v) = length v.
Proof. apply length_imap. Qed.

Lemma lower_loop_spec (bits : bitvec) (sizes : list nat) cur (res : bitvec) :
  length bits <= length sizes ->
  exists r, lower_loop bits sizes cur res = Some r /\ length r = length res /\
    forall pos, bit r pos =
      bit res pos || lowered_hit bits sizes cur pos && bool_decide (pos < length res).
Proof.
  revert sizes cur res. induction bits as [|b bits IH]; intros sizes cur res Hlen.
  - exists res. split; [done|]. split; [done|]. intros pos. simpl. by rewrite orb_false_r.
  - destruct sizes as [|w sizes]; simpl in Hlen; [lia|].
    destruct (IH sizes (cur + w) (if b then bv_set_range cur (cur + w) res else res))
      as (r & Hr & Hlr & Hbits); [lia|].
    exists r. simpl. split; [done|].
    assert (Hl : length (if b then bv_set_range cur (cur + w) res else res) = length res)
      by (destruct b; [apply length_set_range|done]).
    rewrite Hl in Hlr, Hbits. split; [done|]. intros pos. rewrite Hbits.
    destruct b; simpl; [rewrite bit_set_range|].
    + destruct (bit res pos), (bool_decide (cur <= pos < cur + w)),
        (lowered_hit bits sizes (cur + w) pos), (bool_decide (pos < length res)); done.
    + done.
Qed.

Lemma lowered_hit_below (bits : bitvec) (sizes : list nat) cur pos :
  pos < cur -> lowered_hit bits sizes cur pos = false.
Proof.
  revert bits cur. induction sizes as [|w sizes IH]; intros bits cur Hpos;
    destruct bits as [|b bits]; simpl; try done.
  rewrite bool_decide_false by lia. rewrite andb_false_r. simpl. apply IH. lia.
Qed.

Lemma lowered_hit_at (bits : bitvec) (sizes : list nat) cur j w k :
  sizes !! j = Some w -> k < w ->
  lowered_hit bits sizes cur (cur + sum_list (take j sizes) + k) = bit bits j.
Proof.
  revert bits cur j. induction sizes as [|w' sizes IH]; intros bits cur j Hj Hk;
    [done|].
  destruct bits as [|b bits].
  { destruct j; reflexivity. }
  destruct j as [|j]; simpl in Hj |- *.
  - injection Hj as ->. rewrite bool_decide_true by lia.
    rewrite lowered_hit_below by lia. unfold bit. simpl. by destruct b.
  - rewrite bool_decide_false by lia. rewrite andb_false_r. simpl.
    replace (cur + (w' + sum_list (take j sizes)) + k)
      with (cur + w' + sum_list (take j sizes) + k) by lia.
    exact (IH bits (cur + w') j Hj Hk).
Qed.

Lemma sum_list_take_lookup (sizes : list nat) j w :
  sizes !! j = Some w -> sum_list (take j sizes) + w <= sum_list sizes.
Proof.
  revert j. induction sizes as [|w' sizes IH]; intros j Hj; [done|].
  destruct j as [|j]; simpl in *.
  - injection Hj as ->. lia.
  - specialize (IH j Hj). lia.
Qed.

Lemma getLowered_logical x f su (ps : list Ty) :
  logical_params x f su = Some ps ->
  getLowered x f su =
  lower_loop (indices x) (map countNumFlattenedElementTypes ps) 0
             (replicate (sum_list (map countNumFlattenedElementTypes ps)) false).
Proof.
  unfold logical_params, getLowered.
  destruct su, (isMethodFlag x); simpl; try (intros [= <-]; by rewrite app_nil_r).
  destruct f as [[|self [|p' ps']] res]; simpl; try discriminate.
  destruct res as [| |ps' r]; try discriminate. intros [= <-]. simpl.
  by rewrite map_app.
Qed.

(** C3 (counterexample): a set with more bits than the function type has
    parameters makes [paramLoweredSizes[i]] go out of range, so [getLowered]
    does not return a bit-vector for every set and every function type. *)
Lemma C3_getLowered_mismatch_aborts :
  getLowered {| indices := [true]; isMethodFlag := false |}
             {| fnParams := []; fnResult := TyNominal "R" |} false = None.
Proof. reflexivity. Qed.

Lemma lower_loop_short (bits : bitvec) (sizes : list nat) cur (res : bitvec) :
  length sizes < length bits -> lower_loop bits sizes cur res = None.
Proof.
  revert sizes cur res. induction bits as [|b bits IH]; intros sizes cur res H;
    simpl in H; [lia|].
  destruct sizes as [|w sizes]; [done|]. simpl in H |- *. apply IH. lia.
Qed.

Lemma getLowered_unfit x f su :
  logical_params x f su = None -> getLowered x f su = None.
Proof.
  unfold logical_params, getLowered. intros H.
  destruct (isMethodFlag x), su; simpl in *; try discriminate.
  destruct f as [[|self [|p' ps']] res]; simpl in *; try done.
  destruct res; simpl in *; done.
Qed.

(** C3 (amended): [getLowered] aborts when the function type does not fit the
    set: a method lowered with [selfUncurried = false] on a type that is not
    [(Self) -> (P...) -> R] (the assertion of [unwrapSelfParameter]), or a set
    with more bits than there are logical parameters ([paramLoweredSizes[i]] out
    of range).  When they fit, it returns a bit-vector whose length is the sum
    of the flattened widths of the logical parameters, and the range
    [[cursor, cursor + width)] of the [j]-th logical parameter is set exactly
    when bit [j] is set.  For [(A, (B, C), D) -> R] with bits [{0, 1}] the result
    is [1110]. *)
Theorem C3_getLowered_spec x f su :
  (logical_params x f su = None -> getLowered x f su = None) /\
  (forall ps, logical_params x f su = Some ps -> length ps < length (indices x) ->
     getLowered x f su = None) /\
  (forall ps, logical_params x f su = Some ps -> length (indices x) <= length ps ->
   exists r, getLowered x f su = Some r /\
     length r = sum_list (map countNumFlattenedElementTypes ps) /\
     forall j p k, ps !! j = Some p -> k < countNumFlattenedElementTypes p ->
       r !! (sum_list (take j (map countNumFlattenedElementTypes ps)) + k)
       = Some (bit (indices x) j)) /\
  getLowered {| indices := [true; true; false]; isMethodFlag := false |}
    {| fnParams := [TyNominal "A"; TyTuple [TyNominal "B"; TyNominal "C"]; TyNominal "D"];
       fnResult := TyNominal "R" |} false = Some [true; true; true; false].
Proof.
  split; [apply getLowered_unfit|]. split.
  { intros ps Hps Hlt. rewrite (getLowered_logical x f su ps Hps).
    apply lower_loop_short. rewrite length_map. lia. }
  split; [|reflexivity].
  intros ps Hps Hlen.
  rewrite (getLowered_logical x f su ps Hps).
  set (sizes := map countNumFlattenedElementTypes ps).
  destruct (lower_loop_spec (indices x) sizes 0 (replicate (sum_list sizes) false))
    as (r & Hr & Hlr & Hbits); [subst sizes; by rewrite length_map|].
  rewrite length_replicate in Hlr.
  exists r. split; [done|]. split; [done|].
  intros j p k Hj Hk.
  assert (Hw : sizes !! j = Some (countNumFlattenedElementTypes p))
    by (subst sizes; by rewrite list_lookup_fmap, Hj).
  pose proof (sum_list_take_lookup sizes j _ Hw) as Hsum.
  rewrite bit_lookup by lia. f_equal.
  rewrite Hbits, bit_replicate_false, length_replicate. simpl.
  rewrite bool_decide_true by lia.
  pose proof (lowered_hit_at (indices x) sizes 0 j _ k Hw Hk) as Hh. simpl in Hh.
  rewrite Hh. by rewrite andb_true_r.
Qed.

Lemma C3_getLowered_spec_witness :
  logical_params {| indices := [false; false; true; true]; isMethodFlag := true |}
    {| fnParams := [TyNominal "Self"];
       fnResult := TyFunction [TyNominal "A"; TyNominal "B"; TyNominal "C"] (TyNominal "R") |}
    false
  = Some [TyNominal "A"; TyNominal "B"; TyNominal "C"; TyNominal "Self"] /\
  (exists r, getLowered {| indices := [false; false; true; true]; isMethodFlag := true |}
    {| fnParams := [TyNominal "Self"];
       fnResult := TyFunction [TyNominal "A"; TyNominal "B"; TyNominal "C"] (TyNominal "R") |}
    false = Some r /\ length r = 4) /\
  getLowered {| indices := [true; true]; isMethodFlag := true |}
    {| fnParams := [TyNominal "A"; TyNominal "B"]; fnResult := TyNominal "R" |} false = None.
Proof.
  split; [reflexivity|]. split.
  - destruct (C3_getLowered_spec {| indices := [false; false; true; true]; isMethodFlag := true |}
      {| fnParams := [TyNominal "Self"];
         fnResult := TyFunction [TyNominal "A"; TyNominal "B"; TyNominal "C"] (TyNominal "R") |}
      false) as (_ & _ & Hfit & _).
    destruct (Hfit [TyNominal "A"; TyNominal "B"; TyNominal "C"; TyNominal "Self"]
      eq_refl ltac:(simpl; lia)) as (r & Hr & Hl & _).
    exists r. split; [exact Hr|exact Hl].
  - destruct (C3_getLowered_spec {| indices := [true; true]; isMethodFlag := true |}
      {| fnParams := [TyNominal "A"; TyNominal "B"]; fnResult := TyNominal "R" |} false)
      as (Hunfit & _ & _ & _).
    apply Hunfit. reflexivity.
Defined.

(** ** Subset parameter types *)

Lemma subset_loop_spec (bits : bitvec) (ps pre : list Ty) :
  length (pre ++ ps) <= length bits ->
  subset_loop bits (pre ++ ps) (length pre) (length ps) =
  Some (concat (imap (fun i p => if bit bits (length pre + i) then [p] else []) ps)).
Proof.
  revert pre. induction ps as [|p ps IH]; intros pre Hlen; [done|].
  rewrite length_app in Hlen. simpl in Hlen. simpl.
  rewrite (bit_lookup bits (length pre)) by lia. simpl.
  rewrite (list_lookup_middle pre ps p (length pre)) by done.
  specialize (IH (pre ++ [p])). rewrite <- app_assoc in IH. simpl in IH.
  rewrite !length_app in IH. simpl in IH.
  replace (length pre + 1) with (S (length pre)) in IH by lia.
  rewrite IH by lia.
  assert (Hext : imap (fun i p0 => if bit bits (S (length pre) + i) then [p0] else []) ps
               = imap (fun i p0 => if bit bits (length pre + S i) then [p0] else []) ps).
  { apply imap_ext. intros i q _.
    by replace (S (length pre) + i) with (length pre + S i) by lia. }
  rewrite Hext. simpl. rewrite Nat.add_0_r. destruct (bit bits (length pre)); reflexivity.
Qed.

(** C4 (counterexample): a method set with a function type that is not of the
    form [(Self) -> (...) -> R] trips the assertion of [unwrapSelfParameter]. *)
Lemma C4_subset_types_not_curried_aborts :
  getSubsetParameterTypes {| indices := [true; true]; isMethodFlag := true |}
    {| fnParams := [TyNominal "A"; TyNominal "B"]; fnResult := TyNominal "R" |} false
  = None.
Proof. reflexivity. Qed.

Lemma subset_types_not_curried x g :
  isMethodFlag x = true -> is_curried_method g = false ->
  getSubsetParameterTypes x g false = None.
Proof.
  intros Hm Hg. unfold getSubsetParameterTypes. rewrite Hm. simpl.
  unfold is_curried_method in Hg. unfold unwrapSelfParameter.
  destruct g as [[|s [|p' ps']] res]; simpl in *; try done.
  destruct res; simpl in *; done.
Qed.

(** C4 (amended): for a method set and [selfUncurried = false]: when the
    function type is [(Self) -> (P...) -> R] with one bit per [P] plus the
    receiver bit, [getSubsetParameterTypes] returns [Self] (the outer type's
    parameter 0) first iff the last bit is set, then the [P]s whose bits are
    set, in position order; when the function type is not a curried method
    type (not exactly one outer parameter, or a result that is not a function
    type), the assertion of [unwrapSelfParameter] fires whatever the bits.
    For [(Self) -> (A, B, C) -> R] with [Self] and [C] selected it returns
    [[Self; C]]. *)
Theorem C4_subset_types_method x :
  isMethodFlag x = true ->
  (forall (self : Ty) (ps : list Ty) (r : Ty),
     length (indices x) = length ps + 1 ->
     getSubsetParameterTypes x {| fnParams := [self]; fnResult := TyFunction ps r |} false
     = Some ((if bit (indices x) (length (indices x) - 1) then [self] else [])
             ++ selected_types (indices x) ps)) /\
  (forall g, is_curried_method g = false -> getSubsetParameterTypes x g false = None) /\
  getSubsetParameterTypes {| indices := [false; false; true; true]; isMethodFlag := true |}
    {| fnParams := [TyNominal "Self"];
       fnResult := TyFunction [TyNominal "A"; TyNominal "B"; TyNominal "C"] (TyNominal "R") |}
    false = Some [TyNominal "Self"; TyNominal "C"].
Proof.
  intros Hm. split; [|split; [intros g; by apply subset_types_not_curried|reflexivity]].
  intros self ps r Hlen.
  unfold getSubsetParameterTypes. rewrite Hm. simpl.
  rewrite (bit_lookup (indices x) (length (indices x) - 1)) by lia. simpl.
  pose proof (subset_loop_spec (indices x) ps [] ltac:(simpl; lia)) as Hloop.
  simpl in Hloop. rewrite Hloop. simpl.
  unfold selected_types. by destruct (bit (indices x) (length (indices x) - 1)).
Qed.

Lemma C4_subset_types_method_witness :
  isMethodFlag {| indices := [true; false; true]; isMethodFlag := true |} = true /\
  getSubsetParameterTypes {| indices := [true; false; true]; isMethodFlag := true |}
    {| fnParams := [TyNominal "Self"];
       fnResult := TyFunction [TyNominal "A"; TyNominal "B"] (TyNominal "R") |} false
  = Some [TyNominal "Self"; TyNominal "A"] /\
  getSubsetParameterTypes {| indices := [true; false; true]; isMethodFlag := true |}
    {| fnParams := [TyNominal "Self"; TyNominal "A"];
       fnResult := TyFunction [TyNominal "B"] (TyNominal "R") |} false = None.
Proof.
  split; [reflexivity|].
  destruct (C4_subset_types_method {| indices := [true; false; true]; isMethodFlag := true |}
    eq_refl) as (Hfit & Hunfit & _).
  split.
  - rewrite (Hfit (TyNominal "Self") [TyNominal "A"; TyNominal "B"] (TyNominal "R") eq_refl).
    reflexivity.
  - apply Hunfit. reflexivity.
Defined.

(** ** Construction from a function type *)

Lemma set_range_replicate n :
  bv_set_range 0 n (replicate n false) = replicate n true.
Proof.
  apply list_eq. intros i. unfold bv_set_range. rewrite list_lookup_imap.
  destruct (decide (i < n)).
  - rewrite !lookup_replicate_2 by done. simpl. by rewrite decide_True by lia.
  - rewrite !(proj1 (lookup_replicate_None n _ i)) by lia. done.
Qed.

(** Construction from a function type characterised. *)
Lemma create_from_type_spec (f : AnyFunctionType) (isMethod setAllParams : bool) :
  (create_from_type f isMethod setAllParams = None <->
   isMethod = true /\ is_curried_method f = false) /\
  (forall x, create_from_type f isMethod setAllParams = Some x ->
     isMethodFlag x = isMethod /\
     length (indices x) = non_self_count f isMethod + (if isMethod then 1 else 0) /\
     Forall (fun b => b = setAllParams) (indices x)).
Proof.
  assert (Hctor : forall n, Forall (fun b => b = setAllParams)
                    (indices (AutoDiffParameterIndices_ctor n isMethod setAllParams)) /\
                  length (indices (AutoDiffParameterIndices_ctor n isMethod setAllParams)) = n).
  { intros n. unfold AutoDiffParameterIndices_ctor. simpl.
    destruct setAllParams; [rewrite set_range_replicate|];
      (split; [apply Forall_replicate; done|apply length_replicate]). }
  unfold create_from_type, unwrapSelfParameter, is_curried_method, non_self_count.
  destruct isMethod.
  - destruct f as [[|self [|p ps]] res]; simpl;
      try (split; [split; [intros _; done|intros _; done]|discriminate]).
    destruct res as [| |ps r]; simpl;
      try (split; [split; [intros _; done|intros _; done]|discriminate]).
    split; [split; [discriminate|intros [_ ?]; discriminate]|].
    intros x [= <-]. destruct (Hctor (length ps + 1)) as [HF HL].
    split; [done|]. split; [done|done].
  - split; [split; [discriminate|intros [? _]; discriminate]|].
    intros x [= <-]. destruct (Hctor (length (fnParams f) + 0)) as [HF HL].
    split; [done|]. split; [done|done].
Qed.

(** C8: construction from a function type aborts exactly when a method is
    asked for on a type that is not [(Self) -> (P...) -> R]; otherwise the set
    has the method flag asked for, one bit per parameter of the type without
    its receiver plus one for the receiver of a method, and every bit equal to
    [setAllParams]. *)
Theorem C8_create_from_type_spec (f : AnyFunctionType) (isMethod setAllParams : bool) :
  (create_from_type f isMethod setAllParams = None <->
   isMethod = true /\ is_curried_method f = false) /\
  (forall x, create_from_type f isMethod setAllParams = Some x ->
     isMethodFlag x = isMethod /\
     length (indices x) = non_self_count f isMethod + (if isMethod then 1 else 0) /\
     Forall (fun b => b = setAllParams) (indices x)).
Proof. exact (create_from_type_spec f isMethod setAllParams). Qed.

(** Both factories produce sets satisfying the data-model invariant. *)
Lemma create_from_type_valid f m s x :
  create_from_type f m s = Some x -> valid x.
Proof.
  intros Hx. destruct (proj2 (create_from_type_spec f m s) x Hx) as (Hm & Hl & _).
  unfold valid. rewrite Hm, Hl. intros ->. lia.
Qed.

Lemma create_from_string_valid str x :
  create_from_string str = Some x -> valid x.
Proof.
  intros Hx. destruct (proj2 (create_from_string_spec str) x Hx) as (_ & Hl & _).
  unfold valid. intros _. rewrite Hl.
  assert (~ malformed str) as Hnm
    by (intros Hm; apply (proj1 (create_from_string_spec str)) in Hm; congruence).
  unfold malformed in Hnm. lia.
Qed.

(** ** Mutators *)

Lemma bit_insert_true_any (v : bitvec) i k :
  i < length v -> bit (<[i:=true]> v) k = if decide (k = i) then true else bit v k.
Proof.
  intros Hi. rewrite bit_insert_true by done.
  destruct (decide (k = i)); [by rewrite bool_decide_true|by rewrite bool_decide_false].
Qed.

Lemma numNonSelf_le x : getNumNonSelfParameters x <= length (indices x).
Proof. unfold getNumNonSelfParameters. lia. Qed.

(** The single-bit setters characterised; the growth lemmas build on it. *)
Lemma setters_spec (x : AutoDiffParameterIndices) :
  valid x ->
  (forall i, setNonSelfParameter x i = None <-> getNumNonSelfParameters x <= i) /\
  (forall i y, setNonSelfParameter x i = Some y ->
     isMethodFlag y = isMethodFlag x /\ length (indices y) = length (indices x) /\
     forall j, bit (indices y) j = if decide (j = i) then true else bit (indices x) j) /\
  (setSelfParameter x = None <-> isMethodFlag x = false) /\
  (forall y, setSelfParameter x = Some y ->
     isMethodFlag y = isMethodFlag x /\ length (indices y) = length (indices x) /\
     forall j, bit (indices y) j =
       if decide (j = length (indices x) - 1) then true else bit (indices x) j).
Proof.
  intros Hvalid. split; [|split; [|split]].
  - intros i. unfold setNonSelfParameter.
    destruct (i <? getNumNonSelfParameters x) eqn:Hi.
    + apply Nat.ltb_lt in Hi. split; [discriminate|lia].
    + apply Nat.ltb_ge in Hi. done.
  - intros i y. unfold setNonSelfParameter.
    destruct (i <? getNumNonSelfParameters x) eqn:Hi; [|discriminate].
    apply Nat.ltb_lt in Hi. pose proof (numNonSelf_le x).
    intros [= <-]. simpl. split; [done|]. split; [apply length_insert|].
    intros j. apply bit_insert_true_any. lia.
  - unfold setSelfParameter. destruct (isMethodFlag x); split; done.
  - intros y. unfold setSelfParameter, valid in *.
    destruct (isMethodFlag x) eqn:Hm; [|discriminate].
    specialize (Hvalid eq_refl).
    intros [= <-]. simpl. split; [done|]. split; [apply length_insert|].
    intros j. apply bit_insert_true_any. lia.
Qed.

(** C9: [setNonSelfParameter i] aborts exactly when [i] is not below
    [getNumNonSelfParameters], and otherwise sets bit [i] and nothing else;
    [setSelfParameter] aborts exactly on a non-method set, and otherwise sets
    the last bit and nothing else. *)
Theorem C9_setters_spec (x : AutoDiffParameterIndices) :
  valid x ->
  (forall i, setNonSelfParameter x i = None <-> getNumNonSelfParameters x <= i) /\
  (forall i y, setNonSelfParameter x i = Some y ->
     isMethodFlag y = isMethodFlag x /\ length (indices y) = length (indices x) /\
     forall j, bit (indices y) j = if decide (j = i) then true else bit (indices x) j) /\
  (setSelfParameter x = None <-> isMethodFlag x = false) /\
  (forall y, setSelfParameter x = Some y ->
     isMethodFlag y = isMethodFlag x /\ length (indices y) = length (indices x) /\
     forall j, bit (indices y) j =
       if decide (j = length (indices x) - 1) then true else bit (indices x) j).
Proof. exact (setters_spec x). Qed.

Lemma C9_setters_spec_witness :
  valid {| indices := [false; false; false]; isMethodFlag := true |} /\
  setNonSelfParameter {| indices := [false; false; false]; isMethodFlag := true |} 2 = None.
Proof.
  assert (Hv : valid {| indices := [false; false; false]; isMethodFlag := true |})
    by (unfold valid; simpl; lia).
  split; [exact Hv|].
  apply (proj1 (C9_setters_spec _ Hv) 2). unfold getNumNonSelfParameters; simpl; lia.
Defined.

(** C10: the mutators only add bits.  [setAllNonSelfParameters] sets exactly
    the bits below [getNumNonSelfParameters] and leaves the receiver bit as
    it was; none of the three mutators clears a set bit or changes the method
    flag or the length. *)
Theorem C10_mutators_grow (x : AutoDiffParameterIndices) :
  valid x ->
  (forall j, bit (indices (setAllNonSelfParameters x)) j =
             bool_decide (j < getNumNonSelfParameters x) || bit (indices x) j) /\
  (isMethodFlag x = true ->
   bit (indices (setAllNonSelfParameters x)) (length (indices x) - 1) =
   bit (indices x) (length (indices x) - 1)) /\
  grows x (setAllNonSelfParameters x) /\
  (forall i y, setNonSelfParameter x i = Some y -> grows x y) /\
  (forall y, setSelfParameter x = Some y -> grows x y).
Proof.
  intros Hvalid.
  assert (Hall : forall j, bit (indices (setAllNonSelfParameters x)) j =
             bool_decide (j < getNumNonSelfParameters x) || bit (indices x) j).
  { intros j. unfold setAllNonSelfParameters. simpl. rewrite bit_set_range.
    pose proof (numNonSelf_le x).
    repeat case_bool_decide; try lia; destruct (bit (indices x) j); done. }
  split; [exact Hall|split; [|split; [|split]]].
  - intros Hm. rewrite Hall. unfold getNumNonSelfParameters. rewrite Hm.
    by rewrite bool_decide_false by lia.
  - split; [done|]. split; [apply length_set_range|].
    intros j Hj. rewrite Hall, Hj. by rewrite orb_true_r.
  - intros i y Hy. destruct (proj1 (proj2 (setters_spec x Hvalid)) i y Hy)
      as (Hm & Hl & Hb).
    split; [done|]. split; [done|]. intros j Hj. rewrite Hb.
    by destruct (decide (j = i)).
  - intros y Hy. destruct (proj2 (proj2 (proj2 (setters_spec x Hvalid))) y Hy)
      as (Hm & Hl & Hb).
    split; [done|]. split; [done|]. intros j Hj. rewrite Hb.
    by destruct (decide (j = length (indices x) - 1)).
Qed.

(** ** SILAutoDiffIndices equality *)

Lemma bit_ge (v : bitvec) i : length v <= i -> bit v i = false.
Proof. intros Hi. unfold bit. by rewrite lookup_ge_None_2. Qed.

Lemma lookup_bv_resize n (v : bitvec) i :
  length v <= n ->
  bv_resize n v !! i = if decide (i < n) then Some (bit v i) else None.
Proof.
  intros Hn. unfold bv_resize. rewrite take_ge by done.
  destruct (decide (i < length v)).
  - rewrite lookup_app_l by done. rewrite decide_True by lia. by apply bit_lookup.
  - rewrite lookup_app_r by lia. rewrite bit_ge by lia.
    destruct (decide (i < n)).
    + rewrite lookup_replicate_2 by lia. done.
    + apply lookup_replicate_None. lia.
Qed.

Lemma bit_xor_assign (a b : bitvec) i :
  bit (bv_xor_assign a b) i = xorb (bit a i) (bit b i).
Proof.
  unfold bv_xor_assign. unfold bit at 1. rewrite lookup_zip_with.
  rewrite !lookup_bv_resize by lia.
  destruct (decide (i < Nat.max (length a) (length b))); [done|].
  rewrite !bit_ge by lia. done.
Qed.

Lemma bv_none_spec (v : bitvec) : bv_none v = true <-> forall i, bit v i = false.
Proof.
  unfold bv_none. induction v as [|b v IH]; simpl.
  - split; [intros _ i; done|done].
  - rewrite andb_true_iff, IH. split.
    + intros [Hb Hv] [|i]; [by destruct b|apply Hv].
    + intros H. split; [by specialize (H 0); destruct b|intros i; apply (H (S i))].
Qed.

(** C6: two [SILAutoDiffIndices] are equal iff their sources are equal and
    their parameter bit-vectors have the same set bits, whatever their
    lengths; bits [{0, 2}] in 3 bits equal bits [{0, 2}] in 5 bits. *)
Theorem C6_eq_length_independent (a b : SILAutoDiffIndices) :
  (SILAutoDiffIndices_eqb a b = true <->
   source a = source b /\
   forall i, bit (parameters a) i = bit (parameters b) i) /\
  SILAutoDiffIndices_eqb {| source := 0; parameters := [true; false; true] |}
    {| source := 0; parameters := [true; false; true; false; false] |} = true.
Proof.
  split; [|reflexivity].
  unfold SILAutoDiffIndices_eqb.
  destruct (Z.eqb_spec (source a) (source b)) as [Hs|Hs]; simpl.
  - rewrite bv_none_spec. split.
    + intros H. split; [done|]. intros i. specialize (H i).
      rewrite !bit_xor_assign, bit_replicate_false in H.
      destruct (bit (parameters a) i), (bit (parameters b) i); done.
    + intros [_ H] i. rewrite !bit_xor_assign, bit_replicate_false, H.
      by destruct (bit (parameters b) i).
  - split; [discriminate|intros [? _]; done].
Qed.

(** ** Associated-function addressing *)

(** C7: with [unsigned] arithmetic, [getNumAutoDiffAssociatedFunctions order]
    is [order * 2] and the offset is [(order - 1) * num(order) + rawValue];
    while no product overflows (order up to 46340) these are the exact
    integers; JVP is 0, VJP is 1, and the four listed values hold. *)
Theorem C7_addressing (order : Z) (kind : AutoDiffAssociatedFunctionKind) :
  (1 <= order < 2 ^ 32)%Z ->
  getNumAutoDiffAssociatedFunctions order = u32 (order * 2) /\
  getOffsetForAutoDiffAssociatedFunction order kind =
    u32 ((order - 1) * getNumAutoDiffAssociatedFunctions order + rawValue kind) /\
  ((order <= 46340)%Z ->
     getNumAutoDiffAssociatedFunctions order = (order * 2)%Z /\
     getOffsetForAutoDiffAssociatedFunction order kind =
       ((order - 1) * (order * 2) + rawValue kind)%Z) /\
  rawValue JVP = 0%Z /\ rawValue VJP = 1%Z /\
  getNumAutoDiffAssociatedFunctions 1 = 2%Z /\
  getOffsetForAutoDiffAssociatedFunction 1 JVP = 0%Z /\
  getOffsetForAutoDiffAssociatedFunction 1 VJP = 1%Z /\
  getOffsetForAutoDiffAssociatedFunction 2 JVP = 4%Z.
Proof.
  intros Hord.
  assert (Hoff : getOffsetForAutoDiffAssociatedFunction order kind =
    u32 ((order - 1) * getNumAutoDiffAssociatedFunctions order + rawValue kind)).
  { unfold getOffsetForAutoDiffAssociatedFunction, u32.
    rewrite (Z.mod_small (order - 1)) by lia.
    apply Z.add_mod_idemp_l. lia. }
  split; [reflexivity|]. split; [exact Hoff|].
  split; [|repeat split; reflexivity].
  intros Hsmall.
  assert (Hnum : getNumAutoDiffAssociatedFunctions order = (order * 2)%Z).
  { unfold getNumAutoDiffAssociatedFunctions, u32. apply Z.mod_small. lia. }
  split; [exact Hnum|]. rewrite Hoff, Hnum. unfold u32. apply Z.mod_small.
  assert (0 <= (order - 1) * (order * 2) <= 46339 * 92680)%Z
    by (split; [apply Z.mul_nonneg_nonneg; lia|apply Z.mul_le_mono_nonneg; lia]).
  destruct kind; simpl; lia.
Qed.

Lemma C7_addressing_witness :
  (1 <= 3 < 2 ^ 32)%Z /\
  getOffsetForAutoDiffAssociatedFunction 3 VJP =
    u32 ((3 - 1) * getNumAutoDiffAssociatedFunctions 3 + rawValue VJP).
Proof.
  split; [lia|].
  destruct (C7_addressing 3 VJP ltac:(lia)) as (_ & H & _). exact H.
Defined.

(** ** SILAutoDiffIndices construction *)

Lemma fold_max_spec (ps : list Z) (a : Z) :
  Forall (fun p => p <= fold_left Z.max ps a)%Z (a :: ps) /\
  fold_left Z.max ps a ∈ a :: ps.
Proof.
  revert a. induction ps as [|p ps IH]; intros a; simpl.
  - split; [constructor; [lia|constructor]|by left].
  - destruct (IH (Z.max a p)) as [Hle Hin]. inversion Hle as [|? ? Ha Hps]; subst.
    split.
    + constructor; [lia|]. constructor; [lia|done].
    + apply elem_of_cons in Hin as [Heq|Hin].
      * rewrite Heq. destruct (Z.max_spec a p) as [[_ ->]|[_ ->]];
          [right; left|left].
      * right. by right.
Qed.

Lemma ctor_loop_ok (ps : list Z) (last : Z) (v : bitvec) :
  (-1 <= last)%Z ->
  Forall (fun p => 0 <= p < 2 ^ 31)%Z ps ->
  Sorted Z.lt ps -> HdRel Z.lt last ps ->
  Forall (fun p => Z.to_nat p < length v) ps ->
  exists r, ctor_loop ps last v = Some r /\ length r = length v /\
    forall i, bit r i = bit v i || bool_decide (Z.of_nat i ∈ ps).
Proof.
  revert last v. induction ps as [|p ps IH]; intros last v Hlast Hrange Hsort Hhd Hlen.
  - exists v. split; [done|]. split; [done|]. intros i.
    rewrite bool_decide_false by (intros Hin; inversion Hin). by rewrite orb_false_r.
  - inversion Hrange as [|? ? Hp Hrange']; subst.
    inversion Hlen as [|? ? Hpl Hlen']; subst.
    apply Sorted_inv in Hsort as [Hsort Hhd'].
    apply HdRel_inv in Hhd.
    simpl. unfold to_int32. rewrite (proj2 (Z.ltb_lt p (2 ^ 31))) by lia.
    rewrite (proj2 (Z.ltb_lt last p)) by lia.
    destruct (IH p (<[Z.to_nat p:=true]> v)) as (r & Hr & Hlr & Hbits);
      [lia|done|done|done| |].
    { eapply Forall_impl; [exact Hlen'|]. intros q Hq. simpl in Hq.
      rewrite length_insert. lia. }
    exists r. split; [done|]. rewrite length_insert in Hlr. split; [done|].
    intros i. rewrite Hbits, bit_insert_true by lia.
    destruct (decide (i = Z.to_nat p)) as [->|Hne].
    + rewrite bool_decide_true by done.
      rewrite (bool_decide_true (Z.of_nat (Z.to_nat p) ∈ p :: ps));
        [by rewrite orb_true_r|]. rewrite Z2Nat.id by lia. by left.
    + rewrite (bool_decide_false (i = Z.to_nat p)) by done. simpl.
      assert (Hiff : Z.of_nat i ∈ p :: ps <-> Z.of_nat i ∈ ps).
      { rewrite elem_of_cons. split; [|tauto]. intros [Heq|Hin]; [|done].
        exfalso. apply Hne. rewrite <- Heq. by rewrite Nat2Z.id. }
      destruct (bool_decide (Z.of_nat i ∈ ps)) eqn:Hb1;
        destruct (bool_decide (Z.of_nat i ∈ p :: ps)) eqn:Hb2; try done.
      * apply bool_decide_eq_true in Hb1. apply bool_decide_eq_false in Hb2. tauto.
      * apply bool_decide_eq_false in Hb1. apply bool_decide_eq_true in Hb2. tauto.
Qed.

Lemma ctor_loop_sound (ps : list Z) (last : Z) (v r : bitvec) :
  (-1 <= last)%Z ->
  Forall (fun p => 0 <= p < 2 ^ 32)%Z ps ->
  ctor_loop ps last v = Some r ->
  Forall (fun p => p < 2 ^ 31)%Z ps /\ Sorted Z.lt ps /\ HdRel Z.lt last ps.
Proof.
  revert last v. induction ps as [|p ps IH]; intros last v Hlast Hrange Hr.
  - split; [constructor|]. split; constructor.
  - inversion Hrange as [|? ? Hp Hrange']; subst. simpl in Hr.
    destruct (last <? to_int32 p)%Z eqn:Hlt; [|discriminate].
    apply Z.ltb_lt in Hlt. unfold to_int32 in *.
    destruct (p <? 2 ^ 31)%Z eqn:Hsmall; [|lia].
    apply Z.ltb_lt in Hsmall.
    destruct (IH p _ ltac:(lia) Hrange' Hr) as (Hf & Hs & Hh).
    split; [constructor; [lia|done]|].
    split; [by constructor|constructor; lia].
Qed.

(** The constructor behaves as the spec says on strictly ascending lists of
    indices below 2^31: one bit per position up to the maximum, exactly the
    given ones set. *)
Lemma SILAutoDiffIndices_ctor_ascending (src : Z) (ps : list Z) :
  ps <> [] ->
  Forall (fun p => 0 <= p < 2 ^ 31)%Z ps ->
  Sorted Z.lt ps ->
  exists r, SILAutoDiffIndices_ctor src ps = Some r /\ source r = src /\
    length (parameters r) = Z.to_nat (max_element ps) + 1 /\
    forall i, bit (parameters r) i = bool_decide (Z.of_nat i ∈ ps).
Proof.
  intros Hne Hrange Hsort. destruct ps as [|p ps']; [done|].
  destruct (fold_max_spec ps' p) as [Hle Hin].
  assert (Hmax : (0 <= max_element (p :: ps') < 2 ^ 31)%Z).
  { simpl. rewrite Forall_forall in Hrange. by apply Hrange. }
  assert (Hu : u32 (max_element (p :: ps') + 1) = (max_element (p :: ps') + 1)%Z)
    by (unfold u32; apply Z.mod_small; lia).
  unfold SILAutoDiffIndices_ctor. rewrite Hu.
  set (v := replicate (Z.to_nat (max_element (p :: ps') + 1)) false).
  destruct (ctor_loop_ok (p :: ps') (-1) v) as (r & Hr & Hlr & Hbits);
    [lia|done|done|constructor; inversion Hrange; lia| |].
  { apply Forall_forall. intros q Hq. subst v. rewrite length_replicate.
    rewrite Forall_forall in Hle, Hrange. specialize (Hle q Hq). specialize (Hrange q Hq).
    change (max_element (p :: ps')) with (fold_left Z.max ps' p) in *. lia. }
  rewrite Hr. eexists. split; [reflexivity|]. simpl. split; [done|].
  subst v. rewrite length_replicate in Hlr. split; [rewrite Hlr; change (max_element (p :: ps')) with (fold_left Z.max ps' p) in *; lia|].
  intros i. rewrite Hbits, bit_replicate_false. done.
Qed.

(** Whenever the constructor returns, its assertion held on every element:
    the list was strictly ascending (and below 2^31). *)
Lemma SILAutoDiffIndices_ctor_asserts (src : Z) (ps : list Z) r :
  Forall (fun p => 0 <= p < 2 ^ 32)%Z ps ->
  SILAutoDiffIndices_ctor src ps = Some r ->
  Sorted Z.lt ps /\ Forall (fun p => p < 2 ^ 31)%Z ps.
Proof.
  intros Hrange. unfold SILAutoDiffIndices_ctor. destruct ps as [|p ps'].
  - intros _. split; constructor.
  - destruct (ctor_loop (p :: ps') (-1) _) as [v'|] eqn:Hl; [|discriminate].
    intros _. destruct (ctor_loop_sound _ (-1) _ _ ltac:(lia) Hrange Hl) as (Hf & Hs & _).
    done.
Qed.

Example SILAutoDiffIndices_ctor_descending :
  SILAutoDiffIndices_ctor 0 [2; 1]%Z = None.
Proof. reflexivity. Qed.

(** C5 (code bug): [[2147483648]] is strictly ascending, but [(int)2147483648]
    is negative, so [assert((int)paramIdx > last)] with [last = -1] fires and
    the constructor aborts instead of building a vector of 2^31 + 1 bits. *)
Theorem C5_ctor_large_index_aborts :
  Sorted Z.lt [2147483648%Z] /\
  SILAutoDiffIndices_ctor 0 [2147483648%Z] = None.
Proof.
  split; [repeat constructor|].
  unfold SILAutoDiffIndices_ctor.
  generalize (replicate (Z.to_nat (u32 (max_element [2147483648%Z] + 1))) false).
  intros v. reflexivity.
Qed.

Lemma C10_mutators_grow_witness :
  valid {| indices := [false; true; false]; isMethodFlag := true |} /\
  grows {| indices := [false; true; false]; isMethodFlag := true |}
        (setAllNonSelfParameters {| indices := [false; true; false]; isMethodFlag := true |}).
Proof.
  assert (Hv : valid {| indices := [false; true; false]; isMethodFlag := true |})
    by (unfold valid; simpl; lia).
  split; [exact Hv|].
  destruct (C10_mutators_grow _ Hv) as (_ & _ & H & _). exact H.
Defined.

(** * Further properties of the code *)

(** ** Shared helpers *)

Lemma bit_ext (a b : bitvec) :
  length a = length b -> (forall i, bit a i = bit b i) -> a = b.
Proof.
  intros Hl Hb. apply list_eq. intros i.
  destruct (decide (i < length a)).
  - rewrite !bit_lookup by lia. by rewrite Hb.
  - rewrite !lookup_ge_None_2 by lia. done.
Qed.

(** ** Differentiability from a function type *)

(** [Differentiability(mode, type)] characterised. *)
Lemma of_type_spec m (hasSelfParam : bool) (f : AnyFunctionType) :
  (Differentiability.of_type m hasSelfParam f = None <->
   hasSelfParam = true /\ castTo_function (fnResult f) = None) /\
  (forall d, Differentiability.of_type m hasSelfParam f = Some d ->
     Differentiability.mode d = m /\ Differentiability.wrtSelf d = hasSelfParam /\
     Differentiability.resultIndices d = [true] /\
     Differentiability.parameterIndices d =
       replicate (non_self_count f hasSelfParam) true).
Proof.
  unfold Differentiability.of_type, Differentiability.bv_set_all, non_self_count.
  destruct hasSelfParam.
  - destruct (fnResult f) as [| |ps r]; simpl;
      try (split; [tauto|discriminate]).
    split; [split; [discriminate|intros [_ ?]; discriminate]|].
    intros d [= <-]. simpl. rewrite !length_replicate, !set_range_replicate.
    repeat split.
  - split; [split; [discriminate|intros [? _]; discriminate]|].
    intros d [= <-]. simpl. rewrite !length_replicate, !set_range_replicate.
    repeat split.
Qed.

(** ** Decoding then encoding *)

Lemma create_loop_flags_inv (rest : string) (pre r : bitvec) :
  create_loop (length pre) rest (pre ++ replicate (String.length rest) false) = Some r ->
  exists bs, r = pre ++ bs /\ flags_string bs = rest.
Proof.
  revert pre. induction rest as [|c rest IH]; intros pre Hr; simpl in Hr.
  - rewrite app_nil_r in Hr. injection Hr as <-. exists []. by rewrite app_nil_r.
  - destruct (Ascii.eqb_spec c "S"%char) as [->|HS];
      [|destruct (Ascii.eqb_spec c "U"%char) as [->|HU]; [|discriminate]].
    + replace (length pre) with (length pre + 0) in Hr at 2 by lia.
      rewrite insert_app_r in Hr. simpl in Hr.
      replace (length pre + 0) with (length pre) in Hr by lia.
      replace (S (length pre)) with (length (pre ++ [true])) in Hr
        by (rewrite length_app; simpl; lia).
      replace (pre ++ true :: replicate (String.length rest) false)
        with ((pre ++ [true]) ++ replicate (String.length rest) false) in Hr
        by (by rewrite <- app_assoc).
      destruct (IH _ Hr) as (bs & -> & Hbs). exists (true :: bs).
      split; [by rewrite <- app_assoc|simpl; by rewrite Hbs].
    + replace (S (length pre)) with (length (pre ++ [false])) in Hr
        by (rewrite length_app; simpl; lia).
      replace (pre ++ false :: replicate (String.length rest) false)
        with ((pre ++ [false]) ++ replicate (String.length rest) false) in Hr
        by (by rewrite <- app_assoc).
      destruct (IH _ Hr) as (bs & -> & Hbs). exists (false :: bs).
      split; [by rewrite <- app_assoc|simpl; by rewrite Hbs].
Qed.

(** Every string the decoder accepts is printed back unchanged by [getString]:
    decoding then encoding is the identity on well-formed strings. *)
Theorem getString_create_from_string (str : string) (x : AutoDiffParameterIndices) :
  create_from_string str = Some x -> getString x = str.
Proof.
  unfold create_from_string. destruct str as [|c0 rest]; [discriminate|].
  cbn [String.length]. destruct (S (String.length rest) <? 2); [discriminate|].
  replace (S (String.length rest) - 1) with (String.length rest) by lia.
  destruct (create_loop 0 rest (replicate (String.length rest) false)) as [r|] eqn:Hl;
    [|by repeat case_match].
  destruct (create_loop_flags_inv rest [] r Hl) as (bs & Hr & Hbs). simpl in Hr. subst r.
  unfold getString.
  destruct (Ascii.eqb_spec c0 "M"%char) as [->|HM].
  - intros [= <-]. simpl. by rewrite Hbs.
  - destruct (Ascii.eqb_spec c0 "F"%char) as [->|HF]; [|discriminate].
    intros [= <-]. simpl. by rewrite Hbs.
Qed.

Lemma getString_create_from_string_witness :
  create_from_string "MUS"%string = Some {| indices := [false; true]; isMethodFlag := true |} /\
  getString {| indices := [false; true]; isMethodFlag := true |} = "MUS"%string.
Proof.
  split; [reflexivity|]. apply getString_create_from_string. reflexivity.
Defined.

(** ** Encoding is injective *)

Lemma flags_string_inj (a b : bitvec) : flags_string a = flags_string b -> a = b.
Proof.
  revert b. induction a as [|x a IH]; intros [|y b] H; simpl in H; try discriminate.
  - done.
  - injection H as Hc Hr. f_equal; [by destruct x, y|by apply IH].
Qed.

(** Two different sets never print the same string: [getString] is
    injective, the empty non-method set included. *)
Theorem getString_injective (x y : AutoDiffParameterIndices) :
  getString x = getString y -> x = y.
Proof.
  destruct x as [bx mx], y as [b_y my]. unfold getString. simpl.
  intros H. injection H as Hm Hb.
  apply flags_string_inj in Hb. subst b_y. f_equal. by destruct mx, my.
Qed.

Lemma getString_injective_witness :
  getString {| indices := [true; false]; isMethodFlag := true |} = "MSU"%string /\
  {| indices := [true; false]; isMethodFlag := true |} =
  {| indices := [true; false]; isMethodFlag := true |}.
Proof.
  split; [reflexivity|]. apply getString_injective. reflexivity.
Defined.

(** ** Flattened widths *)

Lemma count_tuple_acc (n : nat) (elts : list Ty) :
  (fix acc (num : nat) (l : list Ty) : nat :=
     match l with
     | [] => num
     | t' :: l' => acc (num + countNumFlattenedElementTypes t') l'
     end) n elts = n + sum_list (map countNumFlattenedElementTypes elts).
Proof.
  revert n. induction elts as [|t elts IH]; intros n; simpl; [lia|].
  rewrite IH. lia.
Qed.

(** The [accumulate] of [countNumFlattenedElementTypes] over a tuple is the sum
    of the widths of its elements; hence the width of a tuple does not depend
    on how its elements are grouped into nested tuples, a one-element tuple is
    as wide as its element, and the empty tuple has width 0. *)
Theorem countNumFlattenedElementTypes_tuple (elts elts' : list Ty) (t : Ty) :
  countNumFlattenedElementTypes (TyTuple elts) =
    sum_list (map countNumFlattenedElementTypes elts) /\
  countNumFlattenedElementTypes (TyTuple (elts ++ elts')) =
    countNumFlattenedElementTypes (TyTuple [TyTuple elts; TyTuple elts']) /\
  countNumFlattenedElementTypes (TyTuple [t]) = countNumFlattenedElementTypes t /\
  countNumFlattenedElementTypes (TyTuple []) = 0.
Proof.
  assert (Hc : forall l, countNumFlattenedElementTypes (TyTuple l) =
                         sum_list (map countNumFlattenedElementTypes l))
    by (intros l; exact (count_tuple_acc 0 l)).
  split; [apply Hc|]. split; [|split; [|done]].
  - rewrite (Hc (elts ++ elts')), (Hc [TyTuple elts; TyTuple elts']), map_app,
      sum_list_with_app.
    cbn [map]. rewrite (Hc elts), (Hc elts'). cbn [sum_list_with id]. lia.
  - rewrite Hc. cbn [map sum_list_with id]. lia.
Qed.

(** ** Lowering, further *)

Lemma bv_set_range_empty I E (v : bitvec) : E <= I -> bv_set_range I E v = v.
Proof.
  intros HE. apply list_eq. intros k. unfold bv_set_range. rewrite list_lookup_imap.
  destruct (v !! k); simpl; [|done]. by rewrite decide_False by lia.
Qed.

Lemma lower_loop_insert_zero (bits : bitvec) (sizes : list nat) cur res j b :
  sizes !! j = Some 0 ->
  lower_loop (<[j:=b]> bits) sizes cur res = lower_loop bits sizes cur res.
Proof.
  revert sizes cur res j. induction bits as [|c bits IH]; intros sizes cur res j Hj;
    [done|].
  destruct sizes as [|w sizes]; [by rewrite lookup_nil in Hj|].
  destruct j as [|j]; simpl in Hj |- *.
  - injection Hj as ->. rewrite !bv_set_range_empty by lia. by destruct b, c.
  - by apply IH.
Qed.

(** A parameter of width 0 (such as [()]) has no lowered bits: selecting it or
    not does not change the result of [getLowered]. *)
Theorem getLowered_zero_width_param x f su (ps : list Ty) j p b :
  logical_params x f su = Some ps ->
  ps !! j = Some p -> countNumFlattenedElementTypes p = 0 ->
  getLowered {| indices := <[j:=b]> (indices x); isMethodFlag := isMethodFlag x |} f su
  = getLowered x f su.
Proof.
  intros Hps Hj Hp.
  assert (Hps' : logical_params
            {| indices := <[j:=b]> (indices x); isMethodFlag := isMethodFlag x |} f su
          = Some ps) by (rewrite <- Hps; reflexivity).
  rewrite (getLowered_logical _ _ _ _ Hps'), (getLowered_logical _ _ _ _ Hps). simpl.
  apply lower_loop_insert_zero. rewrite list_lookup_fmap, Hj. simpl. by rewrite Hp.
Qed.

Lemma getLowered_zero_width_param_witness :
  logical_params {| indices := [true; false]; isMethodFlag := false |}
    {| fnParams := [TyNominal "A"; TyTuple []]; fnResult := TyNominal "R" |} false
  = Some [TyNominal "A"; TyTuple []] /\
  [TyNominal "A"; TyTuple []] !! 1 = Some (TyTuple []) /\
  countNumFlattenedElementTypes (TyTuple []) = 0 /\
  getLowered {| indices := [true; true]; isMethodFlag := false |}
    {| fnParams := [TyNominal "A"; TyTuple []]; fnResult := TyNominal "R" |} false
  = getLowered {| indices := [true; false]; isMethodFlag := false |}
    {| fnParams := [TyNominal "A"; TyTuple []]; fnResult := TyNominal "R" |} false.
Proof.
  split; [reflexivity|]. split; [reflexivity|]. split; [reflexivity|].
  exact (getLowered_zero_width_param {| indices := [true; false]; isMethodFlag := false |}
    {| fnParams := [TyNominal "A"; TyTuple []]; fnResult := TyNominal "R" |} false
    [TyNominal "A"; TyTuple []] 1 (TyTuple []) true eq_refl eq_refl eq_refl).
Defined.

Lemma sum_list_take_replicate_1 n k : k <= n -> sum_list (take k (replicate n 1)) = k.
Proof. intros Hk. rewrite take_replicate, sum_list_replicate. lia. Qed.

(** When no logical parameter is a tuple (every width is 1) and the set has a
    bit per logical parameter, lowering returns the set's own bit-vector. *)
Theorem getLowered_flat x f su (ps : list Ty) :
  logical_params x f su = Some ps ->
  Forall (fun p => countNumFlattenedElementTypes p = 1) ps ->
  length (indices x) = length ps ->
  getLowered x f su = Some (indices x).
Proof.
  intros Hps Hflat Hlen. rewrite (getLowered_logical x f su ps Hps).
  assert (Hs : map countNumFlattenedElementTypes ps = replicate (length ps) 1).
  { clear -Hflat. induction Hflat as [|p ps Hp _ IH]; [done|]. simpl. by rewrite Hp, IH. }
  rewrite Hs, sum_list_replicate.
  destruct (lower_loop_spec (indices x) (replicate (length ps) 1) 0
             (replicate (length ps * 1) false)) as (r & Hr & Hlr & Hbits);
    [rewrite length_replicate; lia|].
  rewrite Hr. f_equal. apply bit_ext.
  - rewrite Hlr, length_replicate. lia.
  - intros pos. rewrite Hbits, bit_replicate_false, length_replicate. simpl.
    destruct (decide (pos < length ps)).
    + rewrite bool_decide_true by lia. rewrite andb_true_r.
      pose proof (lowered_hit_at (indices x) (replicate (length ps) 1) 0 pos 1 0
        ltac:(by rewrite lookup_replicate_2) ltac:(lia)) as Hh.
      rewrite sum_list_take_replicate_1 in Hh by lia.
      rewrite Nat.add_0_l, Nat.add_0_r in Hh. exact Hh.
    + rewrite bool_decide_false by lia. rewrite andb_false_r. rewrite bit_ge by lia. done.
Qed.

Lemma getLowered_flat_witness :
  logical_params {| indices := [true; false; true]; isMethodFlag := false |}
    {| fnParams := [TyNominal "A"; TyNominal "B"; TyNominal "C"]; fnResult := TyNominal "R" |}
    false = Some [TyNominal "A"; TyNominal "B"; TyNominal "C"] /\
  getLowered {| indices := [true; false; true]; isMethodFlag := false |}
    {| fnParams := [TyNominal "A"; TyNominal "B"; TyNominal "C"]; fnResult := TyNominal "R" |}
    false = Some [true; false; true].
Proof.
  split; [reflexivity|].
  exact (getLowered_flat {| indices := [true; false; true]; isMethodFlag := false |}
    {| fnParams := [TyNominal "A"; TyNominal "B"; TyNominal "C"]; fnResult := TyNominal "R" |}
    false [TyNominal "A"; TyNominal "B"; TyNominal "C"] eq_refl
    ltac:(repeat constructor) eq_refl).
Defined.

Lemma lowered_hit_all (sizes : list nat) cur pos :
  lowered_hit (replicate (length sizes) true) sizes cur pos =
  bool_decide (cur <= pos < cur + sum_list sizes).
Proof.
  revert cur. induction sizes as [|w sizes IH]; intros cur; simpl.
  - rewrite bool_decide_false by lia. done.
  - rewrite IH. repeat case_bool_decide; try lia; done.
Qed.

Lemma lower_loop_all_set (sizes : list nat) :
  lower_loop (replicate (length sizes) true) sizes 0 (replicate (sum_list sizes) false)
  = Some (replicate (sum_list sizes) true).
Proof.
  destruct (lower_loop_spec (replicate (length sizes) true) sizes 0
             (replicate (sum_list sizes) false)) as (r & Hr & Hlr & Hbits);
    [by rewrite length_replicate|].
  rewrite Hr. f_equal. apply bit_ext.
  - by rewrite Hlr, !length_replicate.
  - intros pos. rewrite Hbits, lowered_hit_all, bit_replicate_false, length_replicate.
    simpl. case_bool_decide; case_bool_decide; try lia; simpl.
    + unfold bit. by rewrite lookup_replicate_2 by lia.
    + rewrite bit_ge by (rewrite length_replicate; lia). done.
Qed.

Lemma replicate_of_Forall (l : bitvec) (b : bool) :
  Forall (fun c => c = b) l -> l = replicate (length l) b.
Proof.
  induction 1 as [|c l Hc _ IH]; [done|]. simpl. by rewrite Hc, <- IH.
Qed.

(** A set created with every parameter selected lowers to a bit-vector with
    every bit set, as wide as the sum of the flattened widths of the logical
    parameters. *)
Theorem create_all_lowered_ones f m x :
  create_from_type f m true = Some x ->
  exists ps, logical_params x f false = Some ps /\
    getLowered x f false =
    Some (replicate (sum_list (map countNumFlattenedElementTypes ps)) true).
Proof.
  intros Hx.
  destruct (proj2 (create_from_type_spec f m true) x Hx) as (Hm & Hl & Hall).
  apply replicate_of_Forall in Hall.
  assert (Hps : exists ps, logical_params x f false = Some ps /\
                           length (indices x) = length ps).
  { unfold logical_params, non_self_count in *. rewrite Hm in *. destruct m; simpl.
    - assert (Hc : is_curried_method f = true).
      { destruct (is_curried_method f) eqn:Hc; [done|].
        assert (create_from_type f true true = None)
          by (apply (proj1 (create_from_type_spec f true true)); done).
        congruence. }
      unfold is_curried_method in Hc.
      destruct f as [[|self [|p' ps']] res]; simpl in *; try discriminate.
      destruct res as [| |ps r]; try discriminate.
      eexists. split; [reflexivity|]. rewrite Hl, length_app. simpl. lia.
    - eexists. split; [reflexivity|]. lia. }
  destruct Hps as (ps & Hps & Hlen). exists ps. split; [done|].
  rewrite (getLowered_logical x f false ps Hps), Hall, Hlen.
  rewrite <- (length_map countNumFlattenedElementTypes ps).
  apply lower_loop_all_set.
Qed.

Lemma create_all_lowered_ones_witness :
  create_from_type {| fnParams := [TyNominal "Self"];
                      fnResult := TyFunction [TyNominal "A"; TyTuple [TyNominal "B"; TyNominal "C"]]
                                             (TyNominal "R") |} true true
  = Some {| indices := [true; true; true]; isMethodFlag := true |} /\
  getLowered {| indices := [true; true; true]; isMethodFlag := true |}
    {| fnParams := [TyNominal "Self"];
       fnResult := TyFunction [TyNominal "A"; TyTuple [TyNominal "B"; TyNominal "C"]]
                              (TyNominal "R") |} false
  = Some [true; true; true; true].
Proof.
  split; [reflexivity|].
  destruct (create_all_lowered_ones
    {| fnParams := [TyNominal "Self"];
       fnResult := TyFunction [TyNominal "A"; TyTuple [TyNominal "B"; TyNominal "C"]]
                              (TyNominal "R") |} true
    {| indices := [true; true; true]; isMethodFlag := true |} eq_refl)
    as (ps & Hps & Hr).
  rewrite Hr. injection Hps as <-. reflexivity.
Defined.

(** Lowering a method set against the uncurried shape [(P..., Self) -> R] with
    [selfUncurried = true] gives the same result as against the curried shape
    [(Self) -> (P...) -> R] with [selfUncurried = false]. *)
Theorem getLowered_uncurried_curried x (self r : Ty) (ps : list Ty) :
  isMethodFlag x = true ->
  getLowered x {| fnParams := ps ++ [self]; fnResult := r |} true =
  getLowered x {| fnParams := [self]; fnResult := TyFunction ps r |} false.
Proof. intros Hm. unfold getLowered. rewrite Hm. simpl. by rewrite map_app, app_nil_r. Qed.

Lemma getLowered_uncurried_curried_witness :
  isMethodFlag {| indices := [false; true; true]; isMethodFlag := true |} = true /\
  getLowered {| indices := [false; true; true]; isMethodFlag := true |}
    {| fnParams := [TyNominal "A"; TyTuple [TyNominal "B"; TyNominal "C"]; TyNominal "Self"];
       fnResult := TyNominal "R" |} true =
  getLowered {| indices := [false; true; true]; isMethodFlag := true |}
    {| fnParams := [TyNominal "Self"];
       fnResult := TyFunction [TyNominal "A"; TyTuple [TyNominal "B"; TyNominal "C"]]
                              (TyNominal "R") |} false.
Proof.
  split; [reflexivity|].
  exact (getLowered_uncurried_curried {| indices := [false; true; true]; isMethodFlag := true |}
    (TyNominal "Self") (TyNominal "R") [TyNominal "A"; TyTuple [TyNominal "B"; TyNominal "C"]]
    eq_refl).
Defined.

(** ** Subset parameter types, further *)

Lemma subset_loop_short (bits : bitvec) (ps : list Ty) start count :
  0 < count -> length bits < start + count -> subset_loop bits ps start count = None.
Proof.
  revert start. induction count as [|c IH]; intros start Hc Hlt; [lia|]. simpl.
  destruct (bits !! start) as [b|] eqn:Hb; simpl; [|done].
  apply lookup_lt_Some in Hb.
  destruct b; simpl; [destruct (ps !! start); simpl; [|done]|];
    rewrite IH by lia; done.
Qed.

Lemma subset_loop_app (bits : bitvec) (ps extra : list Ty) start count :
  start + count <= length ps ->
  subset_loop bits (ps ++ extra) start count = subset_loop bits ps start count.
Proof.
  revert start. induction count as [|c IH]; intros start Hle; [done|]. simpl.
  destruct (bits !! start) as [b|]; simpl; [|done].
  destruct b; simpl; [rewrite lookup_app_l by lia; destruct (ps !! start); simpl; [|done]|];
    rewrite IH by lia; done.
Qed.

(** For a non-method set, [getSubsetParameterTypes] returns the parameters
    whose bits are set, in position order, when the set has at least one bit
    per parameter, and aborts on the out-of-range [indices[paramIndex]]
    otherwise; [selfUncurried] plays no role. *)
Theorem subset_types_function x f su :
  isMethodFlag x = false ->
  getSubsetParameterTypes x f su =
  if length (fnParams f) <=? length (indices x)
  then Some (selected_types (indices x) (fnParams f)) else None.
Proof.
  intros Hm. unfold getSubsetParameterTypes. rewrite Hm, andb_false_r. simpl.
  destruct (Nat.leb_spec (length (fnParams f)) (length (indices x))) as [Hle|Hgt].
  - pose proof (subset_loop_spec (indices x) (fnParams f) [] ltac:(simpl; lia)) as Hl.
    simpl in Hl. rewrite Hl. reflexivity.
  - rewrite subset_loop_short by lia. reflexivity.
Qed.

Lemma subset_types_function_witness :
  isMethodFlag {| indices := [true; false]; isMethodFlag := false |} = false /\
  getSubsetParameterTypes {| indices := [true; false]; isMethodFlag := false |}
    {| fnParams := [TyNominal "A"; TyNominal "B"; TyNominal "C"]; fnResult := TyNominal "R" |}
    false = None.
Proof.
  split; [reflexivity|].
  rewrite (subset_types_function {| indices := [true; false]; isMethodFlag := false |}
    {| fnParams := [TyNominal "A"; TyNominal "B"; TyNominal "C"]; fnResult := TyNominal "R" |}
    false eq_refl).
  reflexivity.
Defined.

(** For a method set, the uncurried shape [(P..., Self) -> R] with
    [selfUncurried = true] and the curried shape [(Self) -> (P...) -> R] with
    [selfUncurried = false] give the same parameter types (or both abort). *)
Theorem subset_types_uncurried_curried x (self r : Ty) (ps : list Ty) :
  isMethodFlag x = true ->
  getSubsetParameterTypes x {| fnParams := ps ++ [self]; fnResult := r |} true =
  getSubsetParameterTypes x {| fnParams := [self]; fnResult := TyFunction ps r |} false.
Proof.
  intros Hm. unfold getSubsetParameterTypes. rewrite Hm. simpl.
  rewrite length_app. simpl.
  replace (length ps + 1 =? 0) with false by (symmetry; apply Nat.eqb_neq; lia).
  replace (length ps + 1 - 1) with (length ps) by lia.
  destruct (indices x !! (length (indices x) - 1)) as [[|]|]; simpl; [| |done].
  - rewrite list_lookup_middle by done. simpl.
    rewrite subset_loop_app by lia. done.
  - rewrite subset_loop_app by lia. done.
Qed.

Lemma subset_types_uncurried_curried_witness :
  isMethodFlag {| indices := [true; false; true]; isMethodFlag := true |} = true /\
  getSubsetParameterTypes {| indices := [true; false; true]; isMethodFlag := true |}
    {| fnParams := [TyNominal "A"; TyNominal "B"; TyNominal "Self"]; fnResult := TyNominal "R" |}
    true = Some [TyNominal "Self"; TyNominal "A"].
Proof.
  split; [reflexivity|].
  change [TyNominal "A"; TyNominal "B"; TyNominal "Self"]
    with ([TyNominal "A"; TyNominal "B"] ++ [TyNominal "Self"]).
  rewrite (subset_types_uncurried_curried {| indices := [true; false; true]; isMethodFlag := true |}
    (TyNominal "Self") (TyNominal "R") [TyNominal "A"; TyNominal "B"] eq_refl).
  reflexivity.
Defined.

Lemma selected_all (bits : bitvec) (ps : list Ty) k :
  (forall i, i < length ps -> bit bits (k + i) = true) ->
  concat (imap (fun i p => if bit bits (k + i) then [p] else []) ps) = ps.
Proof.
  revert k. induction ps as [|p ps IH]; intros k Hall; [done|].
  simpl. rewrite (Hall 0) by (simpl; lia). simpl. f_equal.
  transitivity (concat (imap (fun i p => if bit bits (S k + i) then [p] else []) ps)).
  - f_equal. apply imap_ext. intros i q _. cbn. by rewrite Nat.add_succ_r.
  - apply IH. intros i Hi. replace (S k + i) with (k + S i) by lia.
    apply Hall. simpl. lia.
Qed.

(** A set created with every parameter selected yields every parameter type:
    the receiver first for a method, then all the parameters of the unwrapped
    type in order. *)
Theorem create_all_subset_types f m x uw :
  create_from_type f m true = Some x -> unwrapSelfParameter f m = Some uw ->
  getSubsetParameterTypes x f false = Some ((if m then fnParams f else []) ++ fnParams uw).
Proof.
  intros Hx Huw. unfold create_from_type in Hx. rewrite Huw in Hx.
  injection Hx as <-. unfold AutoDiffParameterIndices_ctor, getSubsetParameterTypes.
  simpl. rewrite set_range_replicate, Huw. simpl.
  set (n := length (fnParams uw) + (if m then 1 else 0)).
  assert (Hloop : subset_loop (replicate n true) (fnParams uw) 0 (length (fnParams uw))
                  = Some (fnParams uw)).
  { pose proof (subset_loop_spec (replicate n true) (fnParams uw) []
                  ltac:(simpl; rewrite length_replicate; subst n; lia)) as Hl.
    simpl in Hl. rewrite Hl. f_equal. apply (selected_all _ _ 0).
    intros i Hi. unfold bit. rewrite lookup_replicate_2 by (subst n; lia). done. }
  destruct m; simpl.
  - unfold unwrapSelfParameter in Huw.
    destruct (length (fnParams f) =? 1) eqn:H1; [|discriminate].
    apply Nat.eqb_eq in H1.
    destruct f as [[|self [|p' ps']] res]; simpl in *; try discriminate.
    rewrite length_replicate, lookup_replicate_2 by (subst n; lia). simpl.
    rewrite Hloop. done.
  - rewrite Hloop. done.
Qed.

Lemma create_all_subset_types_witness :
  create_from_type {| fnParams := [TyNominal "Self"];
                      fnResult := TyFunction [TyNominal "A"; TyNominal "B"] (TyNominal "R") |}
    true true = Some {| indices := [true; true; true]; isMethodFlag := true |} /\
  getSubsetParameterTypes {| indices := [true; true; true]; isMethodFlag := true |}
    {| fnParams := [TyNominal "Self"];
       fnResult := TyFunction [TyNominal "A"; TyNominal "B"] (TyNominal "R") |} false
  = Some [TyNominal "Self"; TyNominal "A"; TyNominal "B"].
Proof.
  split; [reflexivity|].
  exact (create_all_subset_types
    {| fnParams := [TyNominal "Self"];
       fnResult := TyFunction [TyNominal "A"; TyNominal "B"] (TyNominal "R") |} true
    {| indices := [true; true; true]; isMethodFlag := true |}
    {| fnParams := [TyNominal "A"; TyNominal "B"]; fnResult := TyNominal "R" |}
    eq_refl eq_refl).
Defined.

(** ** Mutators, further *)

(** Setting non-self parameters one at a time does not depend on the order of
    the calls, and setting the same one twice is the same as setting it once
    (the assertions fail on the same inputs either way). *)
Theorem setNonSelfParameter_comm_idem x i j :
  (y ← setNonSelfParameter x i; setNonSelfParameter y j) =
  (y ← setNonSelfParameter x j; setNonSelfParameter y i) /\
  (y ← setNonSelfParameter x i; setNonSelfParameter y i) = setNonSelfParameter x i.
Proof.
  unfold setNonSelfParameter, getNumNonSelfParameters.
  destruct (i <? length (indices x) - (if isMethodFlag x then 1 else 0)) eqn:Hi,
           (j <? length (indices x) - (if isMethodFlag x then 1 else 0)) eqn:Hj;
    simpl; rewrite ?length_insert, ?Hi, ?Hj; split; try done.
  - destruct (decide (i = j)) as [->|Hne]; [done|].
    by rewrite list_insert_insert_ne by done.
  - by rewrite list_insert_insert_eq.
  - by rewrite list_insert_insert_eq.
Qed.

(** [setAllNonSelfParameters] subsumes any earlier [setNonSelfParameter]. *)
Theorem setAll_absorbs_setNonSelf x i y :
  setNonSelfParameter x i = Some y ->
  setAllNonSelfParameters y = setAllNonSelfParameters x.
Proof.
  unfold setNonSelfParameter. destruct (i <? getNumNonSelfParameters x) eqn:Hi;
    [|discriminate].
  apply Nat.ltb_lt in Hi. pose proof (numNonSelf_le x) as Hle.
  intros [= <-]. unfold setAllNonSelfParameters, getNumNonSelfParameters in *. simpl.
  rewrite length_insert. f_equal.
  apply bit_ext; [by rewrite !length_set_range, length_insert|].
  intros k. rewrite !bit_set_range, length_insert, bit_insert_true by lia.
  destruct (bit (indices x) k); repeat case_bool_decide; simpl; try done; lia.
Qed.

Lemma setAll_absorbs_setNonSelf_witness :
  setNonSelfParameter {| indices := [false; false; true]; isMethodFlag := true |} 1
  = Some {| indices := [false; true; true]; isMethodFlag := true |} /\
  setAllNonSelfParameters {| indices := [false; true; true]; isMethodFlag := true |}
  = setAllNonSelfParameters {| indices := [false; false; true]; isMethodFlag := true |}.
Proof.
  split; [reflexivity|].
  exact (setAll_absorbs_setNonSelf {| indices := [false; false; true]; isMethodFlag := true |}
    1 {| indices := [false; true; true]; isMethodFlag := true |} eq_refl).
Defined.

Lemma bit_replicate_true n k : bit (replicate n true) k = bool_decide (k < n).
Proof.
  unfold bit. case_bool_decide.
  - by rewrite lookup_replicate_2.
  - by rewrite (proj1 (lookup_replicate_None n true k)) by lia.
Qed.

(** Creating an empty set and then selecting every non-self parameter (and the
    receiver, for a method) gives the set created with [setAllParams]. *)
Theorem create_then_set_all f m x :
  create_from_type f m false = Some x ->
  (if m then setSelfParameter (setAllNonSelfParameters x)
   else Some (setAllNonSelfParameters x)) = create_from_type f m true.
Proof.
  unfold create_from_type. destruct (unwrapSelfParameter f m) as [uw|]; [|discriminate].
  intros [= <-].
  unfold AutoDiffParameterIndices_ctor, setAllNonSelfParameters, getNumNonSelfParameters.
  simpl. rewrite set_range_replicate, length_replicate.
  destruct m; unfold setSelfParameter; simpl; do 2 f_equal.
  - apply bit_ext; [by rewrite length_insert, length_set_range, !length_replicate|].
    intros k. rewrite length_set_range, length_replicate.
    rewrite bit_insert_true by (rewrite length_set_range, length_replicate; lia).
    rewrite bit_set_range, bit_replicate_false, bit_replicate_true, length_replicate.
    repeat case_bool_decide; try lia; done.
  - apply bit_ext; [by rewrite length_set_range, !length_replicate|].
    intros k. rewrite bit_set_range, bit_replicate_false, bit_replicate_true, length_replicate.
    repeat case_bool_decide; try lia; done.
Qed.

Lemma create_then_set_all_witness :
  create_from_type {| fnParams := [TyNominal "Self"];
                      fnResult := TyFunction [TyNominal "A"] (TyNominal "R") |} true false
  = Some {| indices := [false; false]; isMethodFlag := true |} /\
  setSelfParameter (setAllNonSelfParameters {| indices := [false; false]; isMethodFlag := true |})
  = Some {| indices := [true; true]; isMethodFlag := true |}.
Proof.
  split; [reflexivity|].
  rewrite (create_then_set_all {| fnParams := [TyNominal "Self"];
                      fnResult := TyFunction [TyNominal "A"] (TyNominal "R") |} true
    {| indices := [false; false]; isMethodFlag := true |} eq_refl).
  reflexivity.
Defined.

(** ** SILAutoDiffIndices, further *)

Lemma sil_eqb_spec (a b : SILAutoDiffIndices) :
  SILAutoDiffIndices_eqb a b = true <->
  source a = source b /\ forall i, bit (parameters a) i = bit (parameters b) i.
Proof.
  unfold SILAutoDiffIndices_eqb.
  destruct (Z.eqb_spec (source a) (source b)) as [Hs|Hs]; simpl.
  - rewrite bv_none_spec. split.
    + intros H. split; [done|]. intros i. specialize (H i).
      rewrite !bit_xor_assign, bit_replicate_false in H.
      destruct (bit (parameters a) i), (bit (parameters b) i); done.
    + intros [_ H] i. rewrite !bit_xor_assign, bit_replicate_false, H.
      by destruct (bit (parameters b) i).
  - split; [discriminate|intros [? _]; done].
Qed.

(** [operator==] is an equivalence relation: reflexive, symmetric and
    transitive. *)
Theorem SILAutoDiffIndices_eqb_equivalence :
  (forall a, SILAutoDiffIndices_eqb a a = true) /\
  (forall a b, SILAutoDiffIndices_eqb a b = SILAutoDiffIndices_eqb b a) /\
  (forall a b c, SILAutoDiffIndices_eqb a b = true -> SILAutoDiffIndices_eqb b c = true ->
     SILAutoDiffIndices_eqb a c = true).
Proof.
  split; [|split].
  - intros a. by apply sil_eqb_spec.
  - intros a b.
    assert (Hsym : forall a b, SILAutoDiffIndices_eqb a b = true ->
                               SILAutoDiffIndices_eqb b a = true).
    { intros a' b' [Hs Hb]%sil_eqb_spec. apply sil_eqb_spec.
      split; [done|]. intros i. by rewrite Hb. }
    destruct (SILAutoDiffIndices_eqb a b) eqn:Hab, (SILAutoDiffIndices_eqb b a) eqn:Hba;
      try done.
    + apply Hsym in Hab. congruence.
    + apply Hsym in Hba. congruence.
  - intros a b c [Hs1 Hb1]%sil_eqb_spec [Hs2 Hb2]%sil_eqb_spec. apply sil_eqb_spec.
    split; [congruence|]. intros i. by rewrite Hb1, Hb2.
Qed.

Lemma sorted_lt_unique (l1 l2 : list Z) :
  Sorted Z.lt l1 -> Sorted Z.lt l2 -> (forall z, z ∈ l1 <-> z ∈ l2) -> l1 = l2.
Proof.
  intros H1 H2. apply (Sorted_StronglySorted Z.lt_trans) in H1.
  apply (Sorted_StronglySorted Z.lt_trans) in H2.
  revert l2 H2. induction H1 as [|a l1 H1 IH Ha]; intros l2 H2 Heq.
  - destruct l2 as [|b l2]; [done|]. exfalso.
    apply (not_elem_of_nil b). apply Heq. left.
  - destruct H2 as [|b l2 H2 Hb].
    + exfalso. apply (not_elem_of_nil a). apply Heq. left.
    + rewrite Forall_forall in Ha, Hb.
      assert (a = b) as <-.
      { assert (Hab : a ∈ b :: l2) by (apply Heq; left).
        assert (Hba : b ∈ a :: l1) by (apply Heq; left).
        apply elem_of_cons in Hab as [?|Hab]; [done|].
        apply elem_of_cons in Hba as [?|Hba]; [done|].
        specialize (Ha b Hba). specialize (Hb a Hab). lia. }
      f_equal. apply IH; [done|]. intros z. split; intros Hz.
      * assert (Hz' : z ∈ a :: l2) by (apply Heq; by right).
        apply elem_of_cons in Hz' as [->|?]; [|done].
        specialize (Ha a Hz). lia.
      * assert (Hz' : z ∈ a :: l1) by (apply Heq; by right).
        apply elem_of_cons in Hz' as [->|?]; [|done].
        specialize (Hb a Hz). lia.
Qed.

Lemma ctor_bits (src : Z) (ps : list Z) r :
  Forall (fun p => 0 <= p < 2 ^ 32)%Z ps ->
  SILAutoDiffIndices_ctor src ps = Some r ->
  source r = src /\ Sorted Z.lt ps /\
  forall i, bit (parameters r) i = bool_decide (Z.of_nat i ∈ ps).
Proof.
  intros Hrange Hr.
  destruct (SILAutoDiffIndices_ctor_asserts src ps r Hrange Hr) as [Hs Hf].
  destruct ps as [|p ps'].
  - simpl in Hr. injection Hr as <-. simpl. split; [done|]. split; [constructor|].
    intros i. reflexivity.
  - destruct (SILAutoDiffIndices_ctor_ascending src (p :: ps')) as (r' & Hr' & Hsrc & _ & Hbits);
      [done| |done|].
    + rewrite Forall_forall in Hrange, Hf |- *. intros q Hq.
      specialize (Hrange q Hq). specialize (Hf q Hq). lia.
    + rewrite Hr in Hr'. injection Hr' as <-. done.
Qed.

(** Two values built by the constructor (from [unsigned] indices) compare
    equal under [operator==] exactly when they were built from the same
    source and the same list of indices. *)
Theorem SILAutoDiffIndices_ctor_eqb src ps src' ps' a b :
  Forall (fun p => 0 <= p < 2 ^ 32)%Z ps ->
  Forall (fun p => 0 <= p < 2 ^ 32)%Z ps' ->
  SILAutoDiffIndices_ctor src ps = Some a ->
  SILAutoDiffIndices_ctor src' ps' = Some b ->
  (SILAutoDiffIndices_eqb a b = true <-> src = src' /\ ps = ps').
Proof.
  intros H1 H2 Ha Hb.
  destruct (ctor_bits _ _ _ H1 Ha) as (Hsa & Hsorta & Hba).
  destruct (ctor_bits _ _ _ H2 Hb) as (Hsb & Hsortb & Hbb).
  rewrite sil_eqb_spec, Hsa, Hsb. split.
  - intros [-> Hbits]. split; [done|]. apply sorted_lt_unique; [done|done|].
    intros z. destruct (decide (0 <= z)%Z).
    + specialize (Hbits (Z.to_nat z)). rewrite Hba, Hbb, Z2Nat.id in Hbits by lia.
      revert Hbits. repeat case_bool_decide; intros Hq; try discriminate; tauto.
    + rewrite Forall_forall in H1, H2.
      split; intros Hz; [specialize (H1 z Hz)|specialize (H2 z Hz)]; lia.
  - intros [-> ->]. split; [done|]. intros i. by rewrite Hba, Hbb.
Qed.

Lemma SILAutoDiffIndices_ctor_eqb_witness :
  SILAutoDiffIndices_ctor 0 [1; 3]%Z =
    Some {| source := 0%Z; parameters := [false; true; false; true] |} /\
  SILAutoDiffIndices_ctor 0 [1; 2]%Z =
    Some {| source := 0%Z; parameters := [false; true; true] |} /\
  SILAutoDiffIndices_eqb {| source := 0%Z; parameters := [false; true; false; true] |}
    {| source := 0%Z; parameters := [false; true; true] |} = false.
Proof.
  split; [reflexivity|]. split; [reflexivity|].
  destruct (SILAutoDiffIndices_eqb {| source := 0%Z; parameters := [false; true; false; true] |}
    {| source := 0%Z; parameters := [false; true; true] |}) eqn:He; [|reflexivity].
  apply (SILAutoDiffIndices_ctor_eqb 0 [1; 3]%Z 0 [1; 2]%Z _ _
    ltac:(constructor; [lia|constructor; [lia|constructor]])
    ltac:(constructor; [lia|constructor; [lia|constructor]]) eq_refl eq_refl) in He.
  destruct He as [_ He]. discriminate He.
Defined.

(** ** Lowering is monotone *)

Lemma lowered_hit_mono (a b : bitvec) (sizes : list nat) cur pos :
  length a = length b -> (forall j, bit a j = true -> bit b j = true) ->
  lowered_hit a sizes cur pos = true -> lowered_hit b sizes cur pos = true.
Proof.
  revert b sizes cur. induction a as [|x a IH]; intros [|y b] sizes cur Hl Hb H;
    simpl in *; try done; try lia.
  destruct sizes as [|w sizes]; [done|].
  apply orb_true_iff in H as [H|H]; apply orb_true_iff.
  - left. apply andb_true_iff in H as [Hx Hd]. apply andb_true_iff. split; [|done].
    subst x. exact (Hb 0 eq_refl).
  - right. apply (IH b); [lia| |done]. intros j Hj. exact (Hb (S j) Hj).
Qed.

(** Adding bits to a set (as the mutators do) only adds bits to its lowering:
    both sets lower to vectors of the same length, and every bit set in the
    lowering of the smaller set is set in that of the larger one. *)
Theorem getLowered_monotone x y f su (ps : list Ty) :
  grows x y ->
  logical_params x f su = Some ps ->
  length (indices x) <= length ps ->
  exists rx ry, getLowered x f su = Some rx /\ getLowered y f su = Some ry /\
    length rx = length ry /\ forall pos, bit rx pos = true -> bit ry pos = true.
Proof.
  intros (Hm & Hl & Hb) Hps Hlen.
  assert (Hps' : logical_params y f su = Some ps)
    by (unfold logical_params in *; by rewrite Hm).
  rewrite (getLowered_logical x f su ps Hps), (getLowered_logical y f su ps Hps').
  set (sizes := map countNumFlattenedElementTypes ps).
  destruct (lower_loop_spec (indices x) sizes 0 (replicate (sum_list sizes) false))
    as (rx & Hrx & Hlx & Hbx); [subst sizes; by rewrite length_map|].
  destruct (lower_loop_spec (indices y) sizes 0 (replicate (sum_list sizes) false))
    as (ry & Hry & Hly & Hby); [subst sizes; rewrite length_map; lia|].
  exists rx, ry. split; [done|]. split; [done|]. split; [congruence|].
  intros pos Hpos. rewrite Hbx, bit_replicate_false in Hpos. rewrite Hby, bit_replicate_false.
  simpl in *. apply andb_true_iff in Hpos as [Hh Hd]. rewrite Hd, andb_true_r.
  eapply lowered_hit_mono; [|exact Hb|exact Hh]. done.
Qed.

Lemma getLowered_monotone_witness :
  grows {| indices := [true; false; false]; isMethodFlag := false |}
        {| indices := [true; false; true]; isMethodFlag := false |} /\
  getLowered {| indices := [true; false; false]; isMethodFlag := false |}
    {| fnParams := [TyNominal "A"; TyTuple [TyNominal "B"; TyNominal "C"]; TyNominal "D"];
       fnResult := TyNominal "R" |} false = Some [true; false; false; false] /\
  getLowered {| indices := [true; false; true]; isMethodFlag := false |}
    {| fnParams := [TyNominal "A"; TyTuple [TyNominal "B"; TyNominal "C"]; TyNominal "D"];
       fnResult := TyNominal "R" |} false = Some [true; false; false; true].
Proof.
  assert (Hg : grows {| indices := [true; false; false]; isMethodFlag := false |}
                     {| indices := [true; false; true]; isMethodFlag := false |}).
  { split; [done|]. split; [done|]. intros [|[|[|j]]]; simpl; done. }
  split; [exact Hg|].
  destruct (getLowered_monotone _ _
    {| fnParams := [TyNominal "A"; TyTuple [TyNominal "B"; TyNominal "C"]; TyNominal "D"];
       fnResult := TyNominal "R" |} false
    [TyNominal "A"; TyTuple [TyNominal "B"; TyNominal "C"]; TyNominal "D"]
    Hg eq_refl ltac:(simpl; lia)) as (rx & ry & Hrx & Hry & _ & _).
  rewrite Hrx, Hry. simpl in Hrx, Hry. injection Hrx as <-. injection Hry as <-.
  split; reflexivity.
Defined.

(** ** Differentiability and the parameter-index set *)

(** Whenever a parameter-index set can be created for a type with every
    parameter selected (the method flag taken as the type's self flag),
    [Differentiability(mode, type)] succeeds on it too: its [wrtSelf] is the
    method flag and its parameter bits are the set's non-self bits. *)
Theorem Differentiability_agrees_with_create m (hasSelf : bool) f x :
  create_from_type f hasSelf true = Some x ->
  exists d, Differentiability.of_type m hasSelf f = Some d /\
    Differentiability.parameterIndices d = take (getNumNonSelfParameters x) (indices x) /\
    Differentiability.wrtSelf d = isMethodFlag x.
Proof.
  intros Hx.
  destruct (proj2 (create_from_type_spec f hasSelf true) x Hx) as (Hm & Hl & Hall).
  apply replicate_of_Forall in Hall.
  destruct (Differentiability.of_type m hasSelf f) as [d|] eqn:Hd.
  - exists d. destruct (proj2 (of_type_spec m hasSelf f) d Hd) as (_ & Hw & _ & Hp).
    split; [done|]. split; [|congruence].
    unfold getNumNonSelfParameters. rewrite Hm, Hp, Hall, length_replicate, Hl.
    rewrite take_replicate. f_equal. destruct hasSelf; lia.
  - exfalso. apply (proj1 (of_type_spec m hasSelf f)) in Hd as [-> Hc].
    unfold create_from_type, unwrapSelfParameter in Hx.
    destruct (length (fnParams f) =? 1); [rewrite Hc in Hx|]; discriminate.
Qed.

Lemma Differentiability_agrees_with_create_witness :
  create_from_type {| fnParams := [TyNominal "Self"];
                      fnResult := TyFunction [TyNominal "A"; TyNominal "B"] (TyNominal "R") |}
    true true = Some {| indices := [true; true; true]; isMethodFlag := true |} /\
  exists d, Differentiability.of_type Differentiability.Reverse true
    {| fnParams := [TyNominal "Self"];
       fnResult := TyFunction [TyNominal "A"; TyNominal "B"] (TyNominal "R") |} = Some d /\
    Differentiability.parameterIndices d = [true; true].
Proof.
  split; [reflexivity|].
  destruct (Differentiability_agrees_with_create Differentiability.Reverse true
    {| fnParams := [TyNominal "Self"];
       fnResult := TyFunction [TyNominal "A"; TyNominal "B"] (TyNominal "R") |}
    {| indices := [true; true; true]; isMethodFlag := true |} eq_refl)
    as (d & Hd & Hp & _).
  exists d. split; [exact Hd|]. rewrite Hp. reflexivity.
Defined.
